(** * glsl: off-screen fragment-shader rendering with a ring of pixel buffers

    A shallow embedding of [glsl.go]: the [Shader] methods [drawImage],
    [downloadImage], [Image] and [Animate], over a small model of the
    OpenGL calls they make, of Go's [image] package, of Go maps (shared,
    mutable objects reached through references) and of the closures the
    methods store in the caller's map.

    Conventions.
    - Go's [uint], [int], [uint64] and [time.Duration] are 64-bit; they
      are integers in [Z] with the wrap-around written out ([GoInt]).
    - [float32] is IEEE binary32, computed with the Standard Library's
      [SpecFloat] at precision 24 and maximal exponent 128 ([F32]).
    - The iteration order of a Go map is unspecified.  Every function
      that ranges over a map takes the order of the visit as an explicit
      list of keys [ks]; the theorems hold for every such list, so for
      every order that visits each key of the map once ([range_order]).
    - [Animate] does not return by itself.  Its model runs for at most
      [fuel] iterations and is told, for each [select] it reaches, which
      of the two channels are ready; the theorems hold for every number
      of iterations and every behaviour of the channels.
    - A panic is [None]. *)

From Stdlib Require Import ZArith Lia SpecFloat.
From Stdlib.Init Require Import Byte.
From stdpp Require Import gmap strings list fin_maps.

Open Scope Z_scope.

(** ** Go integers *)

Module GoInt.

(** Conversion to [uint64] / [uint]. *)
Definition to_uint64 (z : Z) : Z := z mod 2 ^ 64.

(** Conversion to [int64] / [int] / [time.Duration]. *)
Definition to_int64 (z : Z) : Z := (z + 2 ^ 63) mod 2 ^ 64 - 2 ^ 63.

(** Conversion to [int32]. *)
Definition to_int32 (z : Z) : Z := (z + 2 ^ 31) mod 2 ^ 32 - 2 ^ 31.

End GoInt.

(** ** float32 *)

Module F32.

Definition prec : Z := 24.
Definition emax : Z := 128.

(** [float32(z)] for an integer [z]: one rounding to nearest, ties to even. *)
Definition of_Z (z : Z) : spec_float := binary_normalize prec emax z 0 false.

(** [x / y] on float32. *)
Definition div (x y : spec_float) : spec_float := SFdiv prec emax x y.

End F32.

(** [time.Second], in nanoseconds. *)
Definition Second : Z := 1000000000.

(** ** The OpenGL state the methods act on *)

(** The value last pushed to a uniform location ([gl.Uniform1f],
    [gl.Uniform2f], ... or an integer variant). *)
Inductive uval :=
| UFloats (xs : list spec_float)
| UInts (xs : list Z).

Abbreviation ustore := (gmap Z uval).

Record rgba := RGBA_px { px_r : byte; px_g : byte; px_b : byte; px_a : byte }.

Definition pixel_bytes (p : rgba) : list byte := [px_r p; px_g p; px_b p; px_a p].

(** What the linked program computes: the colour of the fragment at
    window position [(x, y)] under the current uniform values. *)
Abbreviation fragment_program := (ustore → Z → Z → rgba).

(** The colour buffer after the full-screen quad is drawn, as
    [gl.ReadPixels(0, 0, w, h, gl.RGBA, gl.UNSIGNED_BYTE)] packs it: rows
    from [y = 0], pixels from [x = 0], four bytes per pixel. *)
Definition rasterize (fragment : fragment_program) (width height : Z)
    (u : ustore) : list byte :=
  y ← seqZ 0 height; x ← seqZ 0 width; pixel_bytes (fragment u x y).

(** The observable events of a run, in the order they happen: the three
    GL calls that matter for scheduling, and a send on the output
    channel.  [DrawArrays] carries the uniform values it drew with, the
    two buffer calls the name of the bound pixel-pack buffer, [Send] the
    pixels of the image sent. *)
Inductive event :=
| DrawArrays (u : ustore)
| ReadPixels (buf : Z)
| GetBufferSubData (buf : Z)
| Send (pix : list byte).

Module GL.

Record state := State {
  uniform_values : ustore;
  rb_width : Z;
  rb_height : Z;
  color_buffer : list byte;
  pack_buffer : Z;
  buffers : gmap Z (list byte);
  trace : list event   (* the events so far; kept here so that every call appends to it *)
}.

Definition set_uniform_values (u : ustore) (g : state) : state :=
  State u (rb_width g) (rb_height g) (color_buffer g) (pack_buffer g)
        (buffers g) (trace g).

Definition log (c : event) (g : state) : state :=
  State (uniform_values g) (rb_width g) (rb_height g) (color_buffer g)
        (pack_buffer g) (buffers g) (trace g ++ [c]).

(** [gl.BindBuffer(gl.PIXEL_PACK_BUFFER, b)]. *)
Definition BindPackBuffer (b : Z) (g : state) : state :=
  State (uniform_values g) (rb_width g) (rb_height g) (color_buffer g)
        b (buffers g) (trace g).

Section Program.
Variable fragment : fragment_program.

(** [gl.DrawArrays(gl.TRIANGLE_STRIP, 0, 4)] on the full-screen quad. *)
Definition DrawQuad (g : state) : state :=
  log (DrawArrays (uniform_values g))
    (State (uniform_values g) (rb_width g) (rb_height g)
       (rasterize fragment (rb_width g) (rb_height g) (uniform_values g))
       (pack_buffer g) (buffers g) (trace g)).
End Program.

(** [gl.ReadPixels(0, 0, width, height, gl.RGBA, gl.UNSIGNED_BYTE, nil)]
    with a pixel-pack buffer bound: the colour buffer is packed into
    the buffer from offset 0.  A request that is not the whole render
    target, or that does not fit the buffer, leaves the buffer as it
    is (the call fails with a GL error, which the program ignores). *)
Definition ReadPixelsToPack (width height : Z) (g : state) : state :=
  let g' := log (ReadPixels (pack_buffer g)) g in
  match buffers g !! pack_buffer g with
  | Some old =>
      if decide (width = rb_width g ∧ height = rb_height g
                 ∧ (length (color_buffer g) ≤ length old)%nat)
      then State (uniform_values g') (rb_width g') (rb_height g')
             (color_buffer g') (pack_buffer g')
             (<[pack_buffer g := color_buffer g
                                 ++ drop (length (color_buffer g)) old]>
                (buffers g'))
             (trace g')
      else g'
  | None => g'
  end.

(** [gl.GetBufferSubData(gl.PIXEL_PACK_BUFFER, 0, size, ptr)], where
    [ptr] points at the first byte of the Go slice [dst]: [size] bytes
    of the bound buffer are copied over the front of [dst].  A [size]
    outside the buffer is a GL error and copies nothing; a [size]
    larger than [dst] would write past the slice, which is [None]. *)
Definition GetPackSubData (size : Z) (dst : list byte) (g : state)
    : option (list byte * state) :=
  let g' := log (GetBufferSubData (pack_buffer g)) g in
  match buffers g !! pack_buffer g with
  | Some data =>
      if decide (0 ≤ size ≤ Z.of_nat (length data))
      then if decide (size ≤ Z.of_nat (length dst))
           then Some (take (Z.to_nat size) data ++ drop (Z.to_nat size) dst, g')
           else None
      else Some (dst, g')
  | None => Some (dst, g')
  end.

End GL.

(** ** Go's [image] package *)

Module image.

Record Rectangle := Rectangle_ { Min_X : Z; Min_Y : Z; Max_X : Z; Max_Y : Z }.

(** [image.Rect]: the corners are swapped where needed, so that the
    result is well formed. *)
Definition Rect (x0 y0 x1 y1 : Z) : Rectangle :=
  let '(x0, x1) := if decide (x0 > x1) then (x1, x0) else (x0, x1) in
  let '(y0, y1) := if decide (y0 > y1) then (y1, y0) else (y0, y1) in
  Rectangle_ x0 y0 x1 y1.

Definition Dx (r : Rectangle) : Z := Max_X r - Min_X r.
Definition Dy (r : Rectangle) : Z := Max_Y r - Min_Y r.

Record RGBA := RGBA_ { Pix : list byte; Stride : Z; Bounds : Rectangle }.

(** [image.NewRGBA]: a zeroed buffer of [4 * Dx * Dy] bytes; it panics
    when that length is negative or is not an [int]. *)
Definition NewRGBA (r : Rectangle) : option RGBA :=
  let len := 4 * Dx r * Dy r in
  if decide (0 ≤ Dx r ∧ 0 ≤ Dy r ∧ len < 2 ^ 63)
  then Some (RGBA_ (replicate (Z.to_nat len) Byte.x00) (4 * Dx r) r)
  else None.


End image.

(** ** Package glsl *)

Module glsl.

(** Modelled from the spec: the [Uniform] type, which another file of
    the package declares and [ListUniforms] fills in; "a mapping from
    uniform name to its metadata (type, location)".  The methods below
    read [Location] only. *)
Record Uniform := Uniform_ { Type_ : Z; Location : Z }.

(** The fields of [Shader] that the rendering methods read.  [pbos] is
    the array [[3]uint32] of buffer names. *)
Record Shader := Shader_ {
  w : Z;
  h : Z;
  pbos : Z * Z * Z;
  uniforms : gmap string Uniform
}.

(** [len(sh.pbos)]. *)
Definition len_pbos : Z := 3.

(** [sh.pbos[i]]; an index out of range panics. *)
Definition pbo_at (sh : Shader) (i : Z) : option Z :=
  let '(p0, p1, p2) := pbos sh in
  if decide (i = 0) then Some p0
  else if decide (i = 1) then Some p1
  else if decide (i = 2) then Some p2
  else None.

(** The values of type [func(int32)] that a uniform map holds:
    - a function of the caller, which may push anything to the uniform
      store, or panic;
    - the closure [func(loc) { gl.Uniform2f(loc, float32(sh.w),
      float32(sh.h)) }] of [Image] and [Animate], with the two fields
      it reads (they never change after construction);
    - the closure [func(loc) { gl.Uniform1f(loc, float32(t) /
      float32(time.Second)) }] of [Animate].  It captures the variable
      [t] itself, not its value: [t] is the heap cell named here, read
      when the closure is called. *)
Inductive setter :=
| CallerSetter (f : Z → ustore → option ustore)
| ResolutionSetter (width height : Z)
| TimeSetter (t : nat).

Abbreviation umap := (gmap string setter).

(** The time uniform's value for an accumulator holding [t] nanoseconds. *)
Definition seconds (t : Z) : spec_float := F32.div (F32.of_Z t) (F32.of_Z Second).

(** Calling [setValue(loc)]. *)
Definition call_setter (vars : gmap nat Z) (setValue : setter) (loc : Z)
    (u : ustore) : option ustore :=
  match setValue with
  | CallerSetter f => f loc u
  | ResolutionSetter width height =>
      Some (<[loc := UFloats [F32.of_Z width; F32.of_Z height]]> u)
  | TimeSetter t => Some (<[loc := UFloats [seconds (vars !!! t)]]> u)
  end.

(** The Go heap and the GL context.  [go_maps] holds the map objects
    ([uniformValues] is a reference into it, or nil), [go_vars] the
    variables that closures have captured. *)
Record World := World_ {
  go_maps : gmap nat umap;
  go_vars : gmap nat Z;
  gl : GL.state
}.

Definition set_gl (g : GL.state) (wd : World) : World :=
  World_ (go_maps wd) (go_vars wd) g.

(** [m[k] = s] on the map object [r]. *)
Definition map_store (r : nat) (k : string) (s : setter) (wd : World) : World :=
  World_ (<[r := <[k := s]> (go_maps wd !!! r)]> (go_maps wd)) (go_vars wd) (gl wd).

(** [map[string]func(int32){}]: a new, empty map object. *)
Definition new_map (wd : World) : nat * World :=
  let r := fresh (dom (go_maps wd)) in
  (r, World_ (<[r := ∅]> (go_maps wd)) (go_vars wd) (gl wd)).

(** A new variable, holding [v]. *)
Definition new_var (v : Z) (wd : World) : nat * World :=
  let x := fresh (dom (go_vars wd)) in
  (x, World_ (go_maps wd) (<[x := v]> (go_vars wd)) (gl wd)).

Definition var_store (x : nat) (v : Z) (wd : World) : World :=
  World_ (go_maps wd) (<[x := v]> (go_vars wd)) (gl wd).

(** The entries of [m] in the order [ks] of a [range] over it. *)
Definition range_entries (m : umap) (ks : list string) : list (string * setter) :=
  omap (λ k, (λ s, (k, s)) <$> m !! k) ks.

(** [ks] is a possible order of a [range] over [m]: every key once. *)
Definition range_order (m : umap) (ks : list string) : Prop :=
  NoDup ks ∧ list_to_set ks = dom m.

Section Program.
Variable fragment : fragment_program.

(** The loop of [drawImage] (lines 125-129). *)
Fixpoint set_uniforms (sh : Shader) (vars : gmap nat Z)
    (entries : list (string * setter)) (u : ustore) : option ustore :=
  match entries with
  | [] => Some u
  | (name, setValue) :: rest =>
      match uniforms sh !! name with
      | Some un =>
          u' ← call_setter vars setValue (Location un) u;
          set_uniforms sh vars rest u'
      | None => set_uniforms sh vars rest u
      end
  end.

(** [drawImage] (lines 124-134).  It only reads the map and the
    captured variables, so it is given their contents: the map
    [uniformValues], visited in the order [ks], and [vars]. *)
Definition drawImage (sh : Shader) (vars : gmap nat Z) (pboIndex : Z)
    (uniformValues : umap) (ks : list string) (g : GL.state)
    : option GL.state :=
  u ← set_uniforms sh vars (range_entries uniformValues ks) (GL.uniform_values g);
  let g := GL.DrawQuad fragment (GL.set_uniform_values u g) in
  buf ← pbo_at sh pboIndex;
  let g := GL.BindPackBuffer buf g in
  Some (GL.ReadPixelsToPack (GoInt.to_int32 (w sh)) (GoInt.to_int32 (h sh)) g).

(** [downloadImage] (lines 117-122). *)
Definition downloadImage (sh : Shader) (pboIndex : Z) (g : GL.state)
    : option (image.RGBA * GL.state) :=
  img ← image.NewRGBA
           (image.Rect 0 0 (GoInt.to_int64 (w sh)) (GoInt.to_int64 (h sh)));
  buf ← pbo_at sh pboIndex;
  let g := GL.BindPackBuffer buf g in
  _ ← head (image.Pix img);
  '(pix, g) ← GL.GetPackSubData
                 (GoInt.to_int64 (GoInt.to_uint64 (w sh * h sh * 4)))
                 (image.Pix img) g;
  Some (image.RGBA_ pix (image.Stride img) (image.Bounds img), g).

(** [if uniformValues == nil { uniformValues = map[string]func(int32){} }]. *)
Definition or_new_map (uniformValues : option nat) (wd : World) : nat * World :=
  match uniformValues with
  | None => new_map wd
  | Some r => (r, wd)
  end.

(** [if _, ok := uniformValues["resolution"]; !ok { ... }]
    (lines 140-144 and 157-161). *)
Definition default_resolution (sh : Shader) (uv : nat) (wd : World) : World :=
  match (go_maps wd !!! uv) !! "resolution" with
  | Some _ => wd
  | None => map_store uv "resolution" (ResolutionSetter (w sh) (h sh)) wd
  end.

(** [Image] (lines 136-148).  The result is the image and the world
    after the call, in which the caller finds its map. *)
Definition Image (sh : Shader) (uniformValues : option nat) (ks : list string)
    (wd : World) : option (image.RGBA * World) :=
  let '(uv, wd) := or_new_map uniformValues wd in
  let wd := default_resolution sh uv wd in
  g ← drawImage sh (go_vars wd) 0 (go_maps wd !!! uv) ks (gl wd);
  '(img, g) ← downloadImage sh 0 g;
  Some (img, set_gl g wd).

(** *** The animation loop *)

(** What the two channels of the [select] (lines 173-177) offer when
    the loop reaches it: whether a receive from [cancel] can proceed,
    whether the send on [stream] can proceed, and the case the
    runtime picks when both can (it picks among the ready cases at
    random). *)
Record select_env := SelectEnv {
  cancel_ready : bool;
  stream_ready : bool;
  pick_cancel : bool
}.

Inductive select_case := CaseCancel | CaseSend.

(** The case a [select] without default takes; [None] when it blocks. *)
Definition go_select (e : select_env) : option select_case :=
  match cancel_ready e, stream_ready e with
  | true, true => Some (if pick_cancel e then CaseCancel else CaseSend)
  | true, false => Some CaseCancel
  | false, true => Some CaseSend
  | false, false => None
  end.

(** Lines 157-165 of the loop body: the two bindings, then [t += interval]. *)
Definition Animate_bind (sh : Shader) (interval : Z) (uv t : nat) (wd : World)
    : World :=
  let wd := default_resolution sh uv wd in
  let wd := map_store uv "time" (TimeSetter t) wd in
  var_store t (GoInt.to_int64 (go_vars wd !!! t + interval)) wd.

(** One pass through the loop body up to the [select] (lines 157-172),
    at frame counter [frame], with the accumulator in the variable [t]:
    the new world, and the image read back when the pass reaches line
    172.  There [frame - 1] does not wrap, as [frame] is at least 3. *)
Definition Animate_body (sh : Shader) (interval : Z) (uv t : nat)
    (ks : list string) (frame : Z) (wd : World)
    : option (World * option image.RGBA) :=
  let wd := Animate_bind sh interval uv t wd in
  g ← drawImage sh (go_vars wd) (frame `mod` len_pbos)
         (go_maps wd !!! uv) ks (gl wd);
  if decide (frame < len_pbos) then Some (set_gl g wd, None)
  else
    '(img, g) ← downloadImage sh ((frame - 1) `mod` len_pbos) g;
    Some (set_gl g wd, Some img).

(** How far a run of [Animate] got. *)
Inductive status :=
| Returned    (* the [cancel] case was taken: line 175 *)
| Blocked     (* waiting at the [select], neither channel ready *)
| Running.    (* the iterations asked for are done, the loop goes on *)

Record run := Run {
  run_status : status;
  run_sent : list image.RGBA;   (* the images sent on [stream], in order *)
  run_frame : Z;                (* the frame counter *)
  run_world : World
}.

(** The loop (lines 156-178), for at most [fuel] iterations from
    iteration number [i].  [envs] gives what each [select] meets, in
    order (past its end neither channel is ever ready), and [ks i] the
    order of the [range] in iteration [i].  A send is also logged in the
    trace. *)
Fixpoint Animate_loop (sh : Shader) (interval : Z) (uv t : nat)
    (ks : nat → list string) (fuel : nat) (envs : list select_env)
    (i : nat) (frame : Z) (sent : list image.RGBA) (wd : World)
    : option run :=
  match fuel with
  | O => Some (Run Running sent frame wd)
  | S fuel =>
      '(wd, read) ← Animate_body sh interval uv t (ks i) frame wd;
      match read with
      | None =>
          Animate_loop sh interval uv t ks fuel envs (S i)
            (GoInt.to_uint64 (frame + 1)) sent wd
      | Some img =>
          match envs with
          | [] => Some (Run Blocked sent frame wd)
          | e :: envs =>
              match go_select e with
              | None => Some (Run Blocked sent frame wd)
              | Some CaseCancel => Some (Run Returned sent frame wd)
              | Some CaseSend =>
                  Animate_loop sh interval uv t ks fuel envs (S i)
                    (GoInt.to_uint64 (frame + 1)) (sent ++ [img])
                    (set_gl (GL.log (Send (image.Pix img)) (gl wd)) wd)
              end
          end
      end
  end.

(** [Animate] (lines 150-179). *)
Definition Animate (sh : Shader) (interval : Z) (envs : list select_env)
    (uniformValues : option nat) (ks : nat → list string) (fuel : nat)
    (wd : World) : option run :=
  let '(uv, wd) := or_new_map uniformValues wd in
  let '(t, wd) := new_var 0 wd in
  Animate_loop sh interval uv t ks fuel envs 0 0 [] wd.

End Program.

(** ** Reading a trace *)

(** The uniform values of the draws, the pixels of the sends and the
    buffers of the readbacks, in order. *)
Definition draws (tr : list event) : list ustore :=
  omap (λ e, match e with DrawArrays u => Some u | _ => None end) tr.

Definition sends (tr : list event) : list (list byte) :=
  omap (λ e, match e with Send pix => Some pix | _ => None end) tr.

Definition readbacks (tr : list event) : list Z :=
  omap (λ e, match e with GetBufferSubData b => Some b | _ => None end) tr.

(** Going back in time from the head of [past] (the latest event
    first): the number of transfer requests into other buffers issued
    since the latest request into [buf]; [None] when there is no
    request into [buf]. *)
Fixpoint transfers_since (buf : Z) (past : list event) : option nat :=
  match past with
  | [] => None
  | ReadPixels b :: past =>
      if decide (b = buf) then Some O else S <$> transfers_since buf past
  | _ :: past => transfers_since buf past
  end.

(** For every readback of [tr], in order, the number of transfer
    requests into other buffers between the request into the buffer
    read and the readback.  [past] is what happened before [tr], the
    latest event first. *)
Fixpoint readback_lags (past tr : list event) : list (option nat) :=
  match tr with
  | [] => []
  | e :: tr =>
      match e with
      | GetBufferSubData b => [transfers_since b past]
      | _ => []
      end ++ readback_lags (e :: past) tr
  end.

(** The draws issued before the first send of [tr]; [None] when [tr]
    has no send. *)
Fixpoint draws_before_first_send (tr : list event) : option nat :=
  match tr with
  | [] => None
  | Send _ :: _ => Some O
  | DrawArrays _ :: tr => S <$> draws_before_first_send tr
  | _ :: tr => draws_before_first_send tr
  end.

(** ** What the theorems assume of a shader and of the caller's map *)

Definition pbo_names (sh : Shader) : list Z :=
  let '(p0, p1, p2) := pbos sh in [p0; p1; p2].

(** The GL objects that [NewShader] asks for (lines 75-88) exist with
    the sizes it asks for: a render target of [w] by [h] pixels, whose
    sides are [int32] in GL, and three distinct pixel-pack buffers of
    [w * h * 4] bytes, a size that is an [int]. *)
Record ready (sh : Shader) (g : GL.state) : Prop := Ready {
  ready_w : 0 < w sh < 2 ^ 31;
  ready_h : 0 < h sh < 2 ^ 31;
  ready_size : w sh * h sh * 4 < 2 ^ 63;
  ready_rb_width : GL.rb_width g = w sh;
  ready_rb_height : GL.rb_height g = h sh;
  ready_names : NoDup (pbo_names sh);
  ready_buffers : ∀ b, b ∈ pbo_names sh →
    ∃ data, GL.buffers g !! b = Some data
            ∧ length data = Z.to_nat (w sh * h sh * 4)
}.

(** A setter of the caller, bound to a name that the program has, does
    not panic when it is called with the location of that name. *)
Definition setter_safe (sh : Shader) (name : string) (s : setter) : Prop :=
  match s, uniforms sh !! name with
  | CallerSetter f, Some un => ∀ u, is_Some (f (Location un) u)
  | _, _ => True
  end.

Definition setters_safe (sh : Shader) (m : umap) : Prop :=
  map_Forall (setter_safe sh) m.

(** The map the caller passed: the object behind the reference, or the
    empty map for nil. *)
Definition caller_map (uniformValues : option nat) (wd : World) : umap :=
  match uniformValues with
  | None => ∅
  | Some r => go_maps wd !!! r
  end.

(** The map after lines 140-144 (157-161), and after line 162. *)
Definition with_resolution (sh : Shader) (m : umap) : umap :=
  match m !! "resolution" with
  | Some _ => m
  | None => <["resolution" := ResolutionSetter (w sh) (h sh)]> m
  end.

Definition with_time (sh : Shader) (t : nat) (m : umap) : umap :=
  <["time" := TimeSetter t]> (with_resolution sh m).

(** The events that a run added to the trace [before]. *)
Definition new_events (before : list event) (wd : World) : list event :=
  drop (length before) (GL.trace (gl wd)).


(** What one pass through the loop body does on a ready shader: it
    draws with the uniform values [u] into the buffer [b] of slot
    [frame mod 3] and, from frame 3 on, reads the buffer of slot
    [(frame - 1) mod 3] back. *)
Record body_step (fragment : fragment_program) (sh : Shader) (interval : Z)
    (uv t : nat) (ks : list string) (frame : Z) (wd wd' : World)
    (read : option image.RGBA) (u : ustore) (b : Z) : Prop := BodyStep {
  step_slot : pbo_at sh (frame `mod` len_pbos) = Some b;
  step_ready : ready sh (gl wd');
  step_map : go_maps wd' !!! uv = with_time sh t (go_maps wd !!! uv);
  step_maps : ∀ r, r ≠ uv → go_maps wd' !! r = go_maps wd !! r;
  step_vars : go_vars wd'
              = <[t := GoInt.to_int64 (go_vars wd !!! t + interval)]> (go_vars wd);
  step_uniforms :
    set_uniforms sh (go_vars wd') (range_entries (go_maps wd' !!! uv) ks)
      (GL.uniform_values (gl wd)) = Some u;
  step_buffers :
    GL.buffers (gl wd')
    = <[b := rasterize fragment (w sh) (h sh) u]> (GL.buffers (gl wd));
  step_prime : frame < len_pbos →
    read = None
    ∧ GL.trace (gl wd') = GL.trace (gl wd) ++ [DrawArrays u; ReadPixels b];
  step_read : len_pbos ≤ frame →
    ∃ b' data,
      pbo_at sh ((frame - 1) `mod` len_pbos) = Some b' ∧ b' ≠ b
      ∧ GL.buffers (gl wd) !! b' = Some data
      ∧ read = Some (image.RGBA_ data (4 * w sh)
                       (image.Rectangle_ 0 0 (w sh) (h sh)))
      ∧ GL.trace (gl wd')
        = GL.trace (gl wd) ++ [DrawArrays u; ReadPixels b; GetBufferSubData b']
}.

(** [delete(m, k)] on the map object [r]: the world in which the caller
    has left the binding [k] out. *)
Definition map_delete (r : nat) (k : string) (wd : World) : World :=
  World_ (<[r := delete k (go_maps wd !!! r)]> (go_maps wd)) (go_vars wd) (gl wd).

(** Two worlds that differ at most in the binding [name] of the map [uv]. *)
Definition agree_off (name : string) (uv : nat) (wd1 wd2 : World) : Prop :=
  gl wd1 = gl wd2 ∧ go_vars wd1 = go_vars wd2
  ∧ ∀ k, k ≠ name → (go_maps wd1 !!! uv) !! k = (go_maps wd2 !!! uv) !! k.

(** What a caller sees of a run: how it ended, the images it received,
    and the GL state. *)
Definition observe (r : run) : status * list image.RGBA * GL.state :=
  (run_status r, run_sent r, gl (run_world r)).

(** The buffer of the ring slot of frame [frame]. *)
Definition ring_slot (sh : Shader) (frame : Z) : Z :=
  default 0 (pbo_at sh (frame `mod` len_pbos)).

(** The GL calls of a trace, without the sends. *)
Definition gl_calls (tr : list event) : list event :=
  omap (λ e, match e with Send _ => None | _ => Some e end) tr.


(** What every invariant of the loop head includes: a ready shader, a
    map whose setters do not panic, a frame counter that is a [uint64]. *)
Definition loop_base (sh : Shader) (uv : nat) (frame : Z) (wd : World) : Prop :=
  ready sh (gl wd) ∧ setters_safe sh (go_maps wd !!! uv) ∧ 0 ≤ frame < 2 ^ 64.


(** The GL calls of one pass through the loop body at frame counter
    [frame] (lines 167 and 172): the draw, the transfer request into the
    buffer of slot [frame mod 3] and, from frame 3 on, the readback of
    the buffer of slot [(frame - 1) mod 3]. *)
Definition iteration_calls (sh : Shader) (frame : Z) (u : ustore) : list event :=
  [DrawArrays u; ReadPixels (ring_slot sh frame)]
  ++ (if decide (frame < len_pbos) then []
      else [GetBufferSubData (ring_slot sh (frame - 1))]).

(** No binding of [m] other than [time] touches the uniform at [loc]
    when the loop of [drawImage] calls it. *)
Definition time_exclusive (sh : Shader) (loc : Z) (m : umap) : Prop :=
  ∀ name s un vars u u',
    name ≠ "time" → m !! name = Some s → uniforms sh !! name = Some un →
    call_setter vars s (Location un) u = Some u' → u' !! loc = u !! loc.

(** ** A small instance, for running the model *)

Definition black : rgba := RGBA_px Byte.x00 Byte.x00 Byte.x00 Byte.xff.
Definition white : rgba := RGBA_px Byte.xff Byte.xff Byte.xff Byte.xff.
Definition red : rgba := RGBA_px Byte.xff Byte.x00 Byte.x00 Byte.xff.

(** A program whose colour tells whether the uniform at location 0
    (its [time]) is zero, is another float, or was never set. *)
Definition demo_fragment : fragment_program := λ u x y,
  match u !! 0 with
  | Some (UFloats [S754_zero _]) => black
  | Some (UFloats [_]) => white
  | _ => red
  end.

Definition demo_shader : Shader :=
  Shader_ 2 1 (1, 2, 3)
    {[ "time" := Uniform_ 0 0; "resolution" := Uniform_ 0 1;
       "tint" := Uniform_ 0 2 ]}.

Definition demo_gl : GL.state :=
  GL.State ∅ 2 1 (replicate 8 Byte.x00) 0
    {[ 1 := replicate 8 Byte.x00; 2 := replicate 8 Byte.x00;
       3 := replicate 8 Byte.x00 ]} [].

(** A caller's map: [tint] is a uniform of the program, [ghost] is not,
    and its setter would panic if it were called. *)
Definition demo_map : umap :=
  {[ "tint" := CallerSetter (λ loc u, Some (<[loc := UFloats [F32.of_Z 1]]> u));
     "ghost" := CallerSetter (λ _ _, None) ]}.

Definition demo_world : World := World_ {[ 5%nat := demo_map ]} ∅ demo_gl.

Definition demo_keys : list string := ["ghost"; "resolution"; "time"; "tint"].

Definition send_ready : select_env := SelectEnv false true false.
Definition cancel_fired : select_env := SelectEnv true false false.
Definition both_ready (pick : bool) : select_env := SelectEnv true true pick.

(** The order of every [range] in the runs below. *)
Definition demo_order : nat → list string := λ _, demo_keys.

(** A run in which the consumer takes two images and then cancels. *)
Definition demo_envs : list select_env := [send_ready; send_ready; cancel_fired].

Definition demo_run : option run :=
  Animate demo_fragment demo_shader Second demo_envs (Some 5%nat) demo_order 6
    demo_world.

(** ** Setters that write their own uniform *)

(** The values that a list of [gl.Uniform...] calls leaves in the
    uniform store: each call writes one location. *)
Definition write_all (ws : list (Z * uval)) (u : ustore) : ustore :=
  foldl (λ acc w, <[w.1 := w.2]> acc) u ws.

(** A setter bound to [name] that, when the program has this name,
    writes a value to the location it is given and does nothing else:
    what [gl.Uniform1f(loc, v)] and the like do.  The two closures of
    [Image] and [Animate] are of this kind. *)
Definition plain_write (sh : Shader) (vars : gmap nat Z) (name : string)
    (s : setter) : Prop :=
  match uniforms sh !! name with
  | Some un =>
      ∃ v, ∀ u, call_setter vars s (Location un) u = Some (<[Location un := v]> u)
  | None => True
  end.

Definition plain_writes (sh : Shader) (vars : gmap nat Z) (m : umap) : Prop :=
  map_Forall (plain_write sh vars) m.

(** The names that [m] binds and the program has are at different
    locations. *)
Definition distinct_locations (sh : Shader) (m : umap) : Prop :=
  ∀ n1 n2 un1 un2,
    is_Some (m !! n1) → is_Some (m !! n2) →
    uniforms sh !! n1 = Some un1 → uniforms sh !! n2 = Some un2 →
    Location un1 = Location un2 → n1 = n2.

(** No binding of [m] touches the uniform at [loc] when the loop of
    [drawImage] calls it. *)
Definition untouched (sh : Shader) (loc : Z) (m : umap) : Prop :=
  ∀ name s un vars u u',
    m !! name = Some s → uniforms sh !! name = Some un →
    call_setter vars s (Location un) u = Some u' → u' !! loc = u !! loc.

(** ** Construction and release *)

(** [NewShader] (lines 36-115) and [Close] (lines 181-189) are modelled
    for the lifetime of what they create: the hidden window with its GL
    context, the names of the GL objects in that context, and the
    process-wide [glfwInitOnce].  The calls in between that configure
    these objects (window hints, storage, attachments, bindings, the
    vertex attribute) create and delete nothing and cannot make
    [NewShader] return; they are left out, as is the goroutine that
    prints the debug messages.  What the configuration achieves is what
    [ready] assumes. *)

(** The names of the GL objects of one context, of the kinds that
    [NewShader] generates and [Close] deletes.  What [linkProgram] may
    create besides the program is not kept track of. *)
Record Context := Context_ {
  framebuffers : gset Z;
  renderbuffers : gset Z;
  buffer_names : gset Z;
  programs : gset Z
}.

(** The context of a new window ([CreateWindow] is given no window to
    share objects with). *)
Definition empty_context : Context := Context_ ∅ ∅ ∅ ∅.

Record Process := Process_ {
  once_done : bool;            (* [glfwInitOnce] has run its function *)
  windows : gmap Z Context;    (* the windows alive, each with its context *)
  current : option Z           (* the window whose context is current *)
}.

(** What the collaborators answer in one call of [NewShader]: an error
    ([Some]) or nil ([None]) for [glfw.Init], [glfw.CreateWindow],
    [gl.Init] and [linkProgram], and the table of [ListUniforms].
    Modelled from the spec: [linkProgram] and [ListUniforms], which
    other files of the package define; "shader source compilation and
    linking" gives "a linked program" or fails, "uniform-location
    introspection" gives the table. *)
Record Answers := Answers_ {
  glfw_Init : option string;
  glfw_CreateWindow : option string;
  gl_Init : option string;
  linkProgram : option string;
  ListUniforms : gmap string Uniform
}.

(** The fields of [Shader] that only construction and release use. *)
Record Handles := Handles_ {
  win : Z;
  fbo : Z;
  rbo : Z;
  canvas : Z;
  program : Z
}.

(** [glfwInitOnce.Do(func() { err = glfw.Init() })]: the function runs
    in the first call only; in every other call [err] stays nil. *)
Definition init_once (ans : Answers) (p : Process) : option string * Process :=
  if once_done p then (None, p)
  else (glfw_Init ans, Process_ true (windows p) (current p)).

(** A name that GL generates: one that is not in use, and not 0. *)
Definition gen_name (used : gset Z) : Z := fresh ({[0]} ∪ used).

(** [NewShader]: the error, or the shader with its handles; and the
    process after the call.  From line 56 on the context of the new
    window is the current one: the GL calls act on it. *)
Definition NewShader (ans : Answers) (width height : Z) (p : Process)
    : (string + Shader * Handles) * Process :=
  let '(err, p) := init_once ans p in
  match err with
  | Some e => (inl e, p)
  | None =>
      match glfw_CreateWindow ans with
      | Some e => (inl e, p)
      | None =>
          let win := fresh (dom (windows p)) in
          let made (c : Context) : Process :=
            Process_ (once_done p) (<[win := c]> (windows p)) (Some win) in
          let c := empty_context in
          match gl_Init ans with
          | Some e => (inl e, made c)
          | None =>
              let fbo := gen_name (framebuffers c) in
              let rbo := gen_name (renderbuffers c) in
              let p0 := gen_name (buffer_names c) in
              let p1 := gen_name ({[p0]} ∪ buffer_names c) in
              let p2 := gen_name ({[p1; p0]} ∪ buffer_names c) in
              let canvas := gen_name ({[p2; p1; p0]} ∪ buffer_names c) in
              let c := Context_ ({[fbo]} ∪ framebuffers c)
                         ({[rbo]} ∪ renderbuffers c)
                         ({[canvas; p2; p1; p0]} ∪ buffer_names c)
                         (programs c) in
              match linkProgram ans with
              | Some e => (inl e, made c)
              | None =>
                  let program := gen_name (programs c) in
                  let c := Context_ (framebuffers c) (renderbuffers c)
                             (buffer_names c) ({[program]} ∪ programs c) in
                  (inr (Shader_ width height (p0, p1, p2) (ListUniforms ans),
                        Handles_ win fbo rbo canvas program),
                   made c)
              end
          end
      end
  end.

(** [Close]: the error it returns, which is nil, and the process after
    the call.  The GL calls delete the names in the context that is
    current, where deleting a name that is not in use does nothing;
    without a current context they have no defined result ([None]), and
    neither has destroying a window that is not alive.  Destroying the
    window destroys its context and detaches it if it is current. *)
Definition Close (sh : Shader) (hd : Handles) (p : Process)
    : option (option string * Process) :=
  cur ← current p;
  c ← windows p !! cur;
  let '(p0, p1, p2) := pbos sh in
  let c := Context_ (framebuffers c ∖ {[fbo hd]})
             (renderbuffers c ∖ {[rbo hd]})
             ((buffer_names c ∖ {[canvas hd]}) ∖ {[p0; p1; p2]})
             (programs c ∖ {[program hd]}) in
  let ws := <[cur := c]> (windows p) in
  if decide (is_Some (ws !! win hd))
  then Some (None,
             Process_ (once_done p) (delete (win hd) ws)
               (if decide (cur = win hd) then None else Some cur))
  else None.

(** The number of GL objects of a context. *)
Definition objects (c : Context) : nat :=
  size (framebuffers c) + size (renderbuffers c) + size (buffer_names c)
  + size (programs c).

(** ** More small instances *)


(** A map that binds a uniform of the program to a setter that panics. *)
Definition broken_map : umap := {[ "tint" := CallerSetter (λ _ _, None) ]}.

Definition broken_world : World := World_ {[ 5%nat := broken_map ]} ∅ demo_gl.

(** Two orders of a [range] over the caller's map of [demo_world] with
    [resolution] added. *)
Definition demo_keys_a : list string := ["ghost"; "resolution"; "tint"].
Definition demo_keys_b : list string := ["tint"; "resolution"; "ghost"].

(** A process that has not called [NewShader] yet, and collaborators
    that report no error, an error of [linkProgram], an error of
    [glfw.Init]. *)
Definition new_process : Process := Process_ false ∅ None.

Definition all_ok : Answers := Answers_ None None None None (uniforms demo_shader).

Definition link_fails : Answers := Answers_ None None None (Some "link") ∅.


(** ** Arithmetic of the Go integer types *)

Lemma to_int64_small z : - 2 ^ 63 ≤ z < 2 ^ 63 → GoInt.to_int64 z = z.
Proof. intros Hz. unfold GoInt.to_int64. rewrite Z.mod_small; lia. Qed.

Lemma to_uint64_small z : 0 ≤ z < 2 ^ 64 → GoInt.to_uint64 z = z.
Proof. intros Hz. unfold GoInt.to_uint64. apply Z.mod_small; lia. Qed.

Lemma to_int32_small z : - 2 ^ 31 ≤ z < 2 ^ 31 → GoInt.to_int32 z = z.
Proof. intros Hz. unfold GoInt.to_int32. rewrite Z.mod_small; lia. Qed.

Lemma to_uint64_range z : 0 ≤ GoInt.to_uint64 z < 2 ^ 64.
Proof. unfold GoInt.to_uint64. apply Z.mod_pos_bound. lia. Qed.

(** Adding to a wrapped accumulator is adding, then wrapping. *)
Lemma to_int64_add a b : GoInt.to_int64 (GoInt.to_int64 a + b) = GoInt.to_int64 (a + b).
Proof.
  unfold GoInt.to_int64. f_equal.
  replace ((a + 2 ^ 63) `mod` 2 ^ 64 - 2 ^ 63 + b + 2 ^ 63)
    with ((a + 2 ^ 63) `mod` 2 ^ 64 + b) by lia.
  rewrite Zplus_mod_idemp_l. f_equal. lia.
Qed.

(** ** Lists of equal-length chunks *)

Lemma length_bind_const {A B} (f : A → list B) (n : nat) (l : list A) :
  (∀ x, length (f x) = n) → length (l ≫= f) = (length l * n)%nat.
Proof.
  intros Hf. induction l as [|x l IH]; [done|].
  rewrite bind_cons, length_app, Hf, IH. simpl. lia.
Qed.


Section Proofs.
Variable fragment : fragment_program.

(** ** The packed colour buffer *)

Lemma length_rasterize width height u :
  0 ≤ width → 0 ≤ height →
  length (rasterize fragment width height u) = Z.to_nat (width * height * 4).
Proof.
  intros Hw Hh. unfold rasterize.
  rewrite (length_bind_const _ (Z.to_nat width * 4)).
  - rewrite length_seqZ. nia.
  - intros y. rewrite (length_bind_const _ 4%nat); [|done].
    rewrite length_seqZ. lia.
Qed.


(** ** The ring of buffer names *)

Lemma pbo_at_names sh i b : pbo_at sh i = Some b → b ∈ pbo_names sh.
Proof.
  unfold pbo_at, pbo_names. destruct (pbos sh) as [[p0 p1] p2].
  repeat case_decide; intros [= <-]; set_solver.
Qed.

Lemma pbo_at_mod sh z : is_Some (pbo_at sh (z `mod` len_pbos)).
Proof.
  unfold pbo_at, len_pbos. destruct (pbos sh) as [[p0 p1] p2].
  pose proof (Z.mod_pos_bound z 3). repeat case_decide; eauto; lia.
Qed.

Lemma pbo_at_inj sh i j b :
  NoDup (pbo_names sh) → pbo_at sh i = Some b → pbo_at sh j = Some b → i = j.
Proof.
  unfold pbo_at, pbo_names. destruct (pbos sh) as [[p0 p1] p2]. intros Hnd.
  apply NoDup_cons in Hnd as [H0 Hnd]. apply NoDup_cons in Hnd as [H1 _].
  intros Hi Hj.
  repeat case_decide; simplify_eq; try lia; set_solver.
Qed.

(** Consecutive frames use different slots. *)
Lemma pbo_at_pred_ne sh frame b b' :
  NoDup (pbo_names sh) →
  pbo_at sh (frame `mod` len_pbos) = Some b →
  pbo_at sh ((frame - 1) `mod` len_pbos) = Some b' → b ≠ b'.
Proof.
  intros Hnd Hb Hb' ->. pose proof (pbo_at_inj _ _ _ _ Hnd Hb Hb') as Heq.
  unfold len_pbos in Heq.
  pose proof (Z.mod_pos_bound frame 3). pose proof (Z.mod_pos_bound (frame - 1) 3).
  pose proof (Z.div_mod frame 3). pose proof (Z.div_mod (frame - 1) 3). lia.
Qed.

(** ** The loop over the uniform map *)

Lemma range_entries_cons (m : umap) k ks :
  range_entries m (k :: ks)
  = match m !! k with
    | Some s => (k, s) :: range_entries m ks
    | None => range_entries m ks
    end.
Proof. unfold range_entries. simpl. by destruct (m !! k). Qed.

Lemma set_uniforms_total sh (m : umap) vars ks u :
  setters_safe sh m → is_Some (set_uniforms sh vars (range_entries m ks) u).
Proof.
  intros Hsafe. revert u. induction ks as [|k ks IH]; intros u; [by eexists|].
  rewrite range_entries_cons. destruct (m !! k) as [s|] eqn:Hk; [|done].
  simpl. destruct (uniforms sh !! k) as [un|] eqn:Hun; [|done].
  specialize (Hsafe k s Hk). unfold setter_safe in Hsafe. rewrite Hun in Hsafe.
  destruct s as [f| |]; simpl; [|done..].
  destruct (Hsafe u) as [u' ->]. simpl. done.
Qed.

Lemma setters_safe_with_resolution sh (m : umap) :
  setters_safe sh m → setters_safe sh (with_resolution sh m).
Proof.
  intros Hsafe. unfold with_resolution. destruct (m !! "resolution"); [done|].
  apply map_Forall_insert_2; [|done]. done.
Qed.

Lemma setters_safe_with_time sh t (m : umap) :
  setters_safe sh m → setters_safe sh (with_time sh t m).
Proof.
  intros Hsafe. apply map_Forall_insert_2; [done|].
  by apply setters_safe_with_resolution.
Qed.

(** ** [drawImage] and [downloadImage] on a ready shader *)

Lemma ready_buffers_update sh g u cb b data tr :
  ready sh g → length data = Z.to_nat (w sh * h sh * 4) →
  ready sh (GL.State u (w sh) (h sh) cb b (<[b := data]> (GL.buffers g)) tr).
Proof.
  intros [] Hlen. constructor; simpl; try done.
  intros b' Hb'. destruct (decide (b = b')) as [->|Hne].
  - exists data. by rewrite lookup_insert_eq.
  - rewrite lookup_insert_ne by done. auto.
Qed.

Lemma ready_same_buffers sh g u cb b tr :
  ready sh g →
  ready sh (GL.State u (GL.rb_width g) (GL.rb_height g) cb b (GL.buffers g) tr).
Proof. intros []. constructor; simpl; done. Qed.

Lemma drawImage_spec sh vars pboIndex (m : umap) ks g u b :
  ready sh g →
  set_uniforms sh vars (range_entries m ks) (GL.uniform_values g) = Some u →
  pbo_at sh pboIndex = Some b →
  drawImage fragment sh vars pboIndex m ks g
  = Some (GL.State u (w sh) (h sh) (rasterize fragment (w sh) (h sh) u) b
            (<[b := rasterize fragment (w sh) (h sh) u]> (GL.buffers g))
            (GL.trace g ++ [DrawArrays u; ReadPixels b])).
Proof.
  intros Hr Hu Hb. unfold drawImage. rewrite Hu. simpl. rewrite Hb. simpl.
  destruct Hr as [Hw Hh Hsz Hrw Hrh Hnd Hbuf].
  destruct (Hbuf b (pbo_at_names _ _ _ Hb)) as (old & Hold & Hlen).
  unfold GL.ReadPixelsToPack. simpl. rewrite Hold.
  rewrite !to_int32_small by lia. rewrite Hrw, Hrh.
  rewrite length_rasterize by lia.
  rewrite decide_True by (split_and!; [done|done|lia]).
  rewrite drop_ge by lia. rewrite app_nil_r, <- app_assoc. done.
Qed.

Lemma downloadImage_spec sh pboIndex g b data :
  ready sh g → pbo_at sh pboIndex = Some b → GL.buffers g !! b = Some data →
  downloadImage sh pboIndex g
  = Some (image.RGBA_ data (4 * w sh) (image.Rectangle_ 0 0 (w sh) (h sh)),
          GL.State (GL.uniform_values g) (GL.rb_width g) (GL.rb_height g)
            (GL.color_buffer g) b (GL.buffers g)
            (GL.trace g ++ [GetBufferSubData b])).
Proof.
  intros Hr Hb Hdata. destruct Hr as [Hw Hh Hsz Hrw Hrh Hnd Hbuf].
  destruct (Hbuf b (pbo_at_names _ _ _ Hb)) as (data' & Hdata' & Hlen).
  assert (data' = data) as -> by congruence.
  assert (0 < w sh * h sh) by nia.
  unfold downloadImage.
  rewrite (to_int64_small (w sh)), (to_int64_small (h sh)) by lia.
  unfold image.Rect. rewrite !decide_False by lia.
  unfold image.NewRGBA, image.Dx, image.Dy. simpl.
  rewrite !Z.sub_0_r. rewrite decide_True by lia. simpl. rewrite Hb. simpl.
  destruct (Z.to_nat (4 * w sh * h sh)) as [|n] eqn:Hn; [lia|]. simpl.
  rewrite to_uint64_small by lia. rewrite to_int64_small by lia.
  unfold GL.GetPackSubData. simpl. rewrite Hdata.
  rewrite decide_True by lia.
  rewrite decide_True by (rewrite length_replicate; lia). simpl.
  rewrite take_ge by lia.
  rewrite drop_ge by (simpl; rewrite length_replicate; lia).
  by rewrite app_nil_r.
Qed.

(** Whatever the GL state, an image that [downloadImage] returns has the
    layout of a [w] by [h] RGBA image, as soon as [w] and [h] are
    positive [int]s: the layout is that of [image.NewRGBA], and the copy
    from the buffer does not change the length. *)
Lemma downloadImage_layout sh pboIndex g img g' :
  0 < w sh < 2 ^ 63 → 0 < h sh < 2 ^ 63 →
  downloadImage sh pboIndex g = Some (img, g') →
  length (image.Pix img) = Z.to_nat (w sh * h sh * 4)
  ∧ image.Stride img = 4 * w sh
  ∧ image.Bounds img = image.Rectangle_ 0 0 (w sh) (h sh).
Proof.
  intros Hw Hh. unfold downloadImage.
  rewrite (to_int64_small (w sh)), (to_int64_small (h sh)) by lia.
  unfold image.Rect. rewrite !decide_False by lia.
  unfold image.NewRGBA, image.Dx, image.Dy. simpl. rewrite !Z.sub_0_r.
  case_decide as Hsize; simpl; [|done].
  destruct (pbo_at sh pboIndex) as [b|]; simpl; [|done].
  destruct (head _); simpl; [|done].
  assert (Z.to_nat (4 * w sh * h sh) = Z.to_nat (w sh * h sh * 4)) as Hlen
    by (f_equal; lia).
  unfold GL.GetPackSubData. simpl.
  destruct (GL.buffers g !! b) as [data|]; simpl.
  - case_decide as Hin; simpl.
    + case_decide as Hfit; simpl; [|done]. intros [= <- _]. simpl.
      rewrite length_replicate in Hfit.
      rewrite length_app, length_take, length_drop, length_replicate.
      split_and!; try done. lia.
    + intros [= <- _]. simpl. by rewrite length_replicate.
  - intros [= <- _]. simpl. by rewrite length_replicate.
Qed.

(** ** The caller's map *)

Lemma default_resolution_map sh uv wd :
  go_maps (default_resolution sh uv wd) !!! uv
  = with_resolution sh (go_maps wd !!! uv).
Proof.
  unfold default_resolution, with_resolution.
  destruct ((go_maps wd !!! uv) !! "resolution"); [done|].
  simpl. by rewrite lookup_total_insert_eq.
Qed.

Lemma default_resolution_other sh uv wd r :
  r ≠ uv → go_maps (default_resolution sh uv wd) !! r = go_maps wd !! r.
Proof.
  intros Hne. unfold default_resolution.
  destruct ((go_maps wd !!! uv) !! "resolution"); [done|].
  simpl. by rewrite lookup_insert_ne.
Qed.

Lemma default_resolution_vars sh uv wd :
  go_vars (default_resolution sh uv wd) = go_vars wd.
Proof.
  unfold default_resolution. by destruct ((go_maps wd !!! uv) !! "resolution").
Qed.

Lemma default_resolution_gl sh uv wd : gl (default_resolution sh uv wd) = gl wd.
Proof.
  unfold default_resolution. by destruct ((go_maps wd !!! uv) !! "resolution").
Qed.

Lemma or_new_map_spec uniformValues wd :
  go_maps (or_new_map uniformValues wd).2 !!! (or_new_map uniformValues wd).1
  = caller_map uniformValues wd
  ∧ go_vars (or_new_map uniformValues wd).2 = go_vars wd
  ∧ gl (or_new_map uniformValues wd).2 = gl wd.
Proof.
  destruct uniformValues as [r|]; simpl; [done|].
  by rewrite lookup_total_insert_eq.
Qed.

Lemma with_resolution_lookup sh (m : umap) :
  with_resolution sh m !! "resolution"
  = Some (default (ResolutionSetter (w sh) (h sh)) (m !! "resolution")).
Proof.
  unfold with_resolution. destruct (m !! "resolution") eqn:Hm; simpl.
  - done.
  - by rewrite lookup_insert_eq.
Qed.

Lemma with_resolution_id sh (m : umap) s :
  m !! "resolution" = Some s → with_resolution sh m = m.
Proof. intros Hm. unfold with_resolution. by rewrite Hm. Qed.

Lemma with_resolution_idemp sh (m : umap) :
  with_resolution sh (with_resolution sh m) = with_resolution sh m.
Proof. eapply with_resolution_id, with_resolution_lookup. Qed.

Lemma with_time_idemp sh t (m : umap) :
  with_time sh t (with_time sh t m) = with_time sh t m.
Proof.
  unfold with_time.
  assert (with_resolution sh (<["time" := TimeSetter t]> (with_resolution sh m))
          = <["time" := TimeSetter t]> (with_resolution sh m)) as ->.
  { eapply with_resolution_id. rewrite lookup_insert_ne by done.
    apply with_resolution_lookup. }
  by rewrite insert_insert_eq.
Qed.

(** ** [Image], step by step *)

Lemma Image_spec sh uniformValues ks wd :
  ready sh (gl wd) → setters_safe sh (caller_map uniformValues wd) →
  ∃ u p0,
    set_uniforms sh (go_vars wd)
      (range_entries (with_resolution sh (caller_map uniformValues wd)) ks)
      (GL.uniform_values (gl wd)) = Some u
    ∧ pbo_at sh 0 = Some p0
    ∧ Image fragment sh uniformValues ks wd
      = Some (image.RGBA_ (rasterize fragment (w sh) (h sh) u) (4 * w sh)
                (image.Rectangle_ 0 0 (w sh) (h sh)),
              set_gl
                (GL.State u (w sh) (h sh) (rasterize fragment (w sh) (h sh) u) p0
                   (<[p0 := rasterize fragment (w sh) (h sh) u]> (GL.buffers (gl wd)))
                   (GL.trace (gl wd)
                    ++ [DrawArrays u; ReadPixels p0; GetBufferSubData p0]))
                (default_resolution sh (or_new_map uniformValues wd).1
                   (or_new_map uniformValues wd).2)).
Proof.
  intros Hr Hsafe.
  destruct (or_new_map_spec uniformValues wd) as (Hm & Hv & Hg).
  unfold Image. destruct (or_new_map uniformValues wd) as [uv wd0]. simpl in *.
  rewrite default_resolution_map, default_resolution_vars, default_resolution_gl.
  rewrite Hm, Hv, Hg.
  destruct (set_uniforms_total sh _ (go_vars wd) ks (GL.uniform_values (gl wd))
              (setters_safe_with_resolution _ _ Hsafe)) as [u Hu].
  destruct (pbo_at_mod sh 0) as [p0 Hp0]. change (0 `mod` len_pbos) with 0 in Hp0.
  exists u, p0. split_and!; [done|done|].
  rewrite (drawImage_spec _ _ _ _ _ _ u p0 Hr Hu Hp0). simpl.
  assert (length (rasterize fragment (w sh) (h sh) u)
          = Z.to_nat (w sh * h sh * 4)) as Hlen.
  { destruct Hr. apply length_rasterize; lia. }
  pose proof (ready_buffers_update sh (gl wd) u
                (rasterize fragment (w sh) (h sh) u) p0 _
                (GL.trace (gl wd) ++ [DrawArrays u; ReadPixels p0]) Hr Hlen) as Hr'.
  rewrite (downloadImage_spec _ _ _ p0 (rasterize fragment (w sh) (h sh) u) Hr' Hp0)
    by (simpl; by rewrite lookup_insert_eq).
  simpl. rewrite <- app_assoc. done.
Qed.

(** ** One pass through the loop body *)

Lemma Animate_bind_map sh interval uv t wd :
  go_maps (Animate_bind sh interval uv t wd) !!! uv
  = with_time sh t (go_maps wd !!! uv).
Proof.
  unfold Animate_bind, with_time. simpl.
  by rewrite lookup_total_insert_eq, default_resolution_map.
Qed.

Lemma Animate_bind_maps sh interval uv t wd r :
  r ≠ uv → go_maps (Animate_bind sh interval uv t wd) !! r = go_maps wd !! r.
Proof.
  intros Hne. unfold Animate_bind. simpl.
  rewrite lookup_insert_ne by done. by apply default_resolution_other.
Qed.

Lemma Animate_bind_vars sh interval uv t wd :
  go_vars (Animate_bind sh interval uv t wd)
  = <[t := GoInt.to_int64 (go_vars wd !!! t + interval)]> (go_vars wd).
Proof. unfold Animate_bind. simpl. by rewrite default_resolution_vars. Qed.

Lemma Animate_bind_gl sh interval uv t wd :
  gl (Animate_bind sh interval uv t wd) = gl wd.
Proof. unfold Animate_bind. simpl. by rewrite default_resolution_gl. Qed.

Lemma Animate_body_step sh interval uv t ks frame wd :
  ready sh (gl wd) → setters_safe sh (go_maps wd !!! uv) →
  ∃ wd' read u b,
    Animate_body fragment sh interval uv t ks frame wd = Some (wd', read)
    ∧ body_step fragment sh interval uv t ks frame wd wd' read u b.
Proof.
  intros Hr Hsafe. unfold Animate_body.
  pose proof (Animate_bind_map sh interval uv t wd) as Hmap.
  pose proof (Animate_bind_maps sh interval uv t wd) as Hmaps.
  pose proof (Animate_bind_vars sh interval uv t wd) as Hvars.
  pose proof (Animate_bind_gl sh interval uv t wd) as Hgl.
  set (wd1 := Animate_bind sh interval uv t wd) in *.
  destruct (set_uniforms_total sh _ (go_vars wd1) ks (GL.uniform_values (gl wd))
              (setters_safe_with_time _ t _ Hsafe)) as [u Hu].
  rewrite <- Hmap in Hu.
  destruct (pbo_at_mod sh frame) as [b Hb].
  rewrite Hgl.
  rewrite (drawImage_spec _ _ _ _ _ _ u b Hr Hu Hb). simpl.
  assert (length (rasterize fragment (w sh) (h sh) u)
          = Z.to_nat (w sh * h sh * 4)) as Hlen.
  { destruct Hr. apply length_rasterize; lia. }
  pose proof (ready_buffers_update sh (gl wd) u
                (rasterize fragment (w sh) (h sh) u) b _
                (GL.trace (gl wd) ++ [DrawArrays u; ReadPixels b]) Hr Hlen) as Hr'.
  destruct (decide (frame < len_pbos)) as [Hlt|Hge].
  - eexists _, None, u, b. split; [done|].
    constructor; simpl; try done; lia.
  - destruct (pbo_at_mod sh (frame - 1)) as [b' Hb'].
    assert (b ≠ b') as Hne by (destruct Hr; eauto using pbo_at_pred_ne).
    destruct (ready_buffers _ _ Hr b' (pbo_at_names _ _ _ Hb')) as (data & Hdata & _).
    rewrite (downloadImage_spec _ _ _ b' data Hr' Hb')
      by (simpl; by rewrite lookup_insert_ne).
    simpl. eexists _, _, u, b. split; [done|].
    constructor; simpl; try done; try (intros; lia).
    + apply (ready_same_buffers _ _ u _ b' _ Hr').
    + intros _. exists b', data. split_and!; try done.
      by rewrite <- app_assoc.
Qed.

(** ** Invariants of the loop *)

(** An invariant [I] of the loop head that gives a ready shader and a
    safe map and that every pass through the body preserves holds along
    the whole run, which never panics; [E] is what then holds where the
    run stops: at a loop head when the iterations asked for are done, or
    at the [select] of iteration [j]. *)
Lemma Animate_loop_inv sh interval uv t ks
    (I : nat → Z → list image.RGBA → World → Prop)
    (E : status → nat → Z → list image.RGBA → World → Prop) :
  (∀ i frame sent wd, I i frame sent wd →
     ready sh (gl wd) ∧ setters_safe sh (go_maps wd !!! uv)) →
  (∀ i frame sent wd, I i frame sent wd → E Running i frame sent wd) →
  (∀ i frame sent wd wd' read u b,
     I i frame sent wd →
     body_step fragment sh interval uv t (ks i) frame wd wd' read u b →
     match read with
     | None => I (S i) (GoInt.to_uint64 (frame + 1)) sent wd'
     | Some img =>
         E Blocked i frame sent wd' ∧ E Returned i frame sent wd'
         ∧ I (S i) (GoInt.to_uint64 (frame + 1)) (sent ++ [img])
             (set_gl (GL.log (Send (image.Pix img)) (gl wd')) wd')
     end) →
  ∀ fuel envs i frame sent wd,
    I i frame sent wd →
    ∃ r j,
      Animate_loop fragment sh interval uv t ks fuel envs i frame sent wd = Some r
      ∧ (i ≤ j ≤ i + fuel)%nat
      ∧ (run_status r = Running → j = (i + fuel)%nat)
      ∧ E (run_status r) j (run_frame r) (run_sent r) (run_world r).
Proof.
  intros Hbase Hstop Hstep fuel.
  induction fuel as [|fuel IH]; intros envs i frame sent wd HI.
  - exists (Run Running sent frame wd), i. simpl. split_and!; auto with lia.
  - destruct (Hbase _ _ _ _ HI) as [Hr Hsafe].
    destruct (Animate_body_step sh interval uv t (ks i) frame wd Hr Hsafe)
      as (wd' & read & u & b & Hbody & Hbs).
    specialize (Hstep _ _ _ _ _ _ _ _ HI Hbs).
    simpl. rewrite Hbody. simpl. destruct read as [img|].
    + destruct Hstep as (HB & HR & HI').
      destruct envs as [|e envs].
      { exists (Run Blocked sent frame wd'), i. simpl. split_and!; auto with lia. done. }
      destruct (go_select e) as [[]|].
      * exists (Run Returned sent frame wd'), i. simpl. split_and!; auto with lia. done.
      * destruct (IH envs _ _ _ _ HI') as (r & j & Hrun & Hj & Hrunning & HE).
        exists r, j. split_and!; auto with lia.
        intros Hs. specialize (Hrunning Hs). lia.
      * exists (Run Blocked sent frame wd'), i. simpl. split_and!; auto with lia. done.
    + destruct (IH envs _ _ _ _ Hstep) as (r & j & Hrun & Hj & Hrunning & HE).
      exists r, j. split_and!; auto with lia.
      intros Hs. specialize (Hrunning Hs). lia.
Qed.

(** The same for [Animate]: the invariant has to hold when the loop is
    entered, with a new accumulator that holds zero. *)
Lemma Animate_inv sh interval uniformValues ks wd uv t
    (I : nat → Z → list image.RGBA → World → Prop)
    (E : status → nat → Z → list image.RGBA → World → Prop) :
  uv = (or_new_map uniformValues wd).1 →
  t = fresh (dom (go_vars wd)) →
  (∀ i frame sent wd, I i frame sent wd →
     ready sh (gl wd) ∧ setters_safe sh (go_maps wd !!! uv)) →
  (∀ i frame sent wd, I i frame sent wd → E Running i frame sent wd) →
  (∀ i frame sent wd wd' read u b,
     I i frame sent wd →
     body_step fragment sh interval uv t (ks i) frame wd wd' read u b →
     match read with
     | None => I (S i) (GoInt.to_uint64 (frame + 1)) sent wd'
     | Some img =>
         E Blocked i frame sent wd' ∧ E Returned i frame sent wd'
         ∧ I (S i) (GoInt.to_uint64 (frame + 1)) (sent ++ [img])
             (set_gl (GL.log (Send (image.Pix img)) (gl wd')) wd')
     end) →
  I O 0 [] (new_var 0 (or_new_map uniformValues wd).2).2 →
  ∀ fuel envs,
    ∃ r j,
      Animate fragment sh interval envs uniformValues ks fuel wd = Some r
      ∧ (j ≤ fuel)%nat
      ∧ (run_status r = Running → j = fuel)
      ∧ E (run_status r) j (run_frame r) (run_sent r) (run_world r).
Proof.
  intros -> -> Hbase Hstop Hstep Hinit fuel envs. unfold Animate.
  destruct (or_new_map_spec uniformValues wd) as (_ & Hv & _).
  destruct (or_new_map uniformValues wd) as [uv wd0]. simpl in *.
  unfold new_var in *. simpl in *. rewrite Hv in *.
  destruct (Animate_loop_inv sh interval uv _ ks I E Hbase Hstop Hstep
              fuel envs _ _ _ _ Hinit) as (r & j & Hrun & Hj & Hrunning & HE).
  exists r, j. split_and!; auto with lia.
Qed.

(** The world in which the loop is entered. *)
Lemma Animate_entry (uniformValues : option nat) (wd : World) :
  let uv := (or_new_map uniformValues wd).1 in
  let t := fresh (dom (go_vars wd)) in
  let wd1 := (new_var 0 (or_new_map uniformValues wd).2).2 in
  gl wd1 = gl wd
  ∧ go_maps wd1 !!! uv = caller_map uniformValues wd
  ∧ go_vars wd1 !!! t = 0
  ∧ (uniformValues = None → uv ∉ dom (go_maps wd))
  ∧ (∀ r, r ≠ uv → go_maps wd1 !! r = go_maps wd !! r).
Proof.
  intros uv t wd1.
  destruct (or_new_map_spec uniformValues wd) as (Hm & Hv & Hg).
  subst uv t wd1. unfold new_var. simpl. rewrite Hv, lookup_total_insert_eq.
  split_and!; try done.
  - intros ->. simpl. apply is_fresh.
  - intros r Hne. destruct uniformValues; simpl in *; [done|].
    by rewrite lookup_insert_ne.
Qed.

(** ** A binding under a name that the program does not have *)

Lemma set_uniforms_agree sh vars name (m1 m2 : umap) ks u :
  uniforms sh !! name = None →
  (∀ k, k ≠ name → m1 !! k = m2 !! k) →
  set_uniforms sh vars (range_entries m1 ks) u
  = set_uniforms sh vars (range_entries m2 (filter (λ k, k ≠ name) ks)) u.
Proof.
  intros Hname Hagree. revert u. induction ks as [|k ks IH]; intros u; [done|].
  rewrite range_entries_cons. destruct (decide (k = name)) as [->|Hne].
  - rewrite filter_cons_False by naive_solver.
    destruct (m1 !! name); [|done]. simpl. by rewrite Hname.
  - rewrite filter_cons_True by done. rewrite range_entries_cons.
    rewrite <- (Hagree k Hne). destruct (m1 !! k); [|done]. simpl.
    destruct (uniforms sh !! k); [|done].
    destruct (call_setter vars s (Location u0) u); simpl; [|done]. apply IH.
Qed.

Lemma range_order_delete (m : umap) name ks :
  range_order m ks → range_order (delete name m) (filter (λ k, k ≠ name) ks).
Proof.
  intros [Hnd Hdom]. split; [by apply NoDup_filter|].
  rewrite dom_delete_L, <- Hdom. apply set_eq. intros k.
  rewrite elem_of_list_to_set, list_elem_of_filter, elem_of_difference,
    elem_of_list_to_set, elem_of_singleton. tauto.
Qed.

Lemma drawImage_agree sh vars name pboIndex (m1 m2 : umap) ks g :
  uniforms sh !! name = None →
  (∀ k, k ≠ name → m1 !! k = m2 !! k) →
  drawImage fragment sh vars pboIndex m1 ks g
  = drawImage fragment sh vars pboIndex m2 (filter (λ k, k ≠ name) ks) g.
Proof.
  intros Hname Hagree. unfold drawImage.
  by rewrite (set_uniforms_agree sh vars name m1 m2 ks _ Hname Hagree).
Qed.

Lemma default_resolution_agree sh name uv wd1 wd2 :
  agree_off name uv wd1 wd2 →
  agree_off name uv (default_resolution sh uv wd1) (default_resolution sh uv wd2).
Proof.
  intros (Hg & Hv & Hm). unfold agree_off.
  rewrite !default_resolution_gl, !default_resolution_vars, !default_resolution_map.
  split_and!; [done..|]. intros k Hk.
  destruct (decide (k = "resolution")) as [->|Hne].
  - rewrite !with_resolution_lookup, (Hm _ Hk). done.
  - unfold with_resolution.
    destruct ((go_maps wd1 !!! uv) !! "resolution"),
      ((go_maps wd2 !!! uv) !! "resolution");
      rewrite ?lookup_insert_ne by done; auto.
Qed.

Lemma Animate_bind_agree sh interval name uv t wd1 wd2 :
  agree_off name uv wd1 wd2 →
  agree_off name uv (Animate_bind sh interval uv t wd1)
    (Animate_bind sh interval uv t wd2).
Proof.
  intros Hagree. pose proof (default_resolution_agree sh _ _ _ _ Hagree) as Hd.
  destruct Hagree as (Hg & Hv & Hm). unfold agree_off.
  rewrite !Animate_bind_gl, !Animate_bind_vars, !Animate_bind_map, Hv.
  split_and!; [done..|]. intros k Hk. unfold with_time.
  destruct (decide (k = "time")) as [->|Hne].
  - by rewrite !lookup_insert_eq.
  - rewrite !lookup_insert_ne by done.
    destruct Hd as (_ & _ & Hd). rewrite !default_resolution_map in Hd. auto.
Qed.

Lemma Animate_body_agree sh interval name uv t ks frame wd1 wd2 :
  uniforms sh !! name = None → agree_off name uv wd1 wd2 →
  match Animate_body fragment sh interval uv t ks frame wd1,
        Animate_body fragment sh interval uv t (filter (λ k, k ≠ name) ks) frame wd2
  with
  | Some (wd1', read1), Some (wd2', read2) =>
      read1 = read2 ∧ agree_off name uv wd1' wd2'
  | None, None => True
  | _, _ => False
  end.
Proof.
  intros Hname Hagree. unfold Animate_body.
  destruct (Animate_bind_agree sh interval _ _ t _ _ Hagree) as (Hg & Hv & Hm).
  rewrite <- Hg, <- Hv.
  rewrite <- (drawImage_agree sh _ name _ _ _ ks _ Hname Hm).
  destruct (drawImage fragment sh _ _ _ ks _) as [g|]; simpl; [|done].
  case_decide.
  - split; [done|]. by split_and!.
  - destruct (downloadImage sh _ g) as [[img g']|]; simpl; [|done].
    split; [done|]. by split_and!.
Qed.

Lemma Animate_loop_agree sh interval name uv t ks fuel envs i frame sent wd1 wd2 :
  uniforms sh !! name = None → agree_off name uv wd1 wd2 →
  observe <$> Animate_loop fragment sh interval uv t ks fuel envs i frame sent wd1
  = observe <$> Animate_loop fragment sh interval uv t
                  (λ i, filter (λ k, k ≠ name) (ks i)) fuel envs i frame sent wd2.
Proof.
  intros Hname. revert envs i frame sent wd1 wd2.
  induction fuel as [|fuel IH]; intros envs i frame sent wd1 wd2 Hagree.
  - simpl. unfold observe. simpl. destruct Hagree as (-> & _). done.
  - simpl.
    pose proof (Animate_body_agree sh interval name uv t (ks i) frame _ _
                  Hname Hagree) as Hbody.
    destruct (Animate_body fragment sh interval uv t (ks i) frame wd1)
      as [[wd1' read1]|];
      destruct (Animate_body fragment sh interval uv t _ frame wd2)
      as [[wd2' read2]|]; try done.
    destruct Hbody as [<- Hagree']. simpl.
    destruct read1 as [img|]; [|by apply IH].
    assert (gl wd1' = gl wd2') as Hg by apply Hagree'.
    destruct envs as [|e envs]; [by unfold observe; simpl; rewrite Hg|].
    destruct (go_select e) as [[]|]; try (by unfold observe; simpl; rewrite Hg).
    apply IH. destruct Hagree' as (_ & Hv & Hm). rewrite Hg. by split_and!.
Qed.

Lemma map_delete_agree name r wd : agree_off name r wd (map_delete r name wd).
Proof.
  unfold agree_off, map_delete. simpl. rewrite lookup_total_insert_eq.
  split_and!; [done..|]. intros k Hk. by rewrite lookup_delete_ne.
Qed.

(** C7.  A binding of the caller under a name that is not among the
    uniforms of the compiled program is ignored.  For [drawImage], and so
    for every draw of [Image] and of [Animate]: drawing with the binding
    and drawing with the binding left out (the other names visited in the
    same order, which is an order of the smaller map) give the same
    result, the same GL state with the same colour buffer and the same
    buffer contents, or the same panic; the setter is never called, so it
    cannot cause an error.  Hence [Image] returns the same image and
    [Animate] sends the same images and ends the same way. *)
Theorem unknown_uniform_ignored sh name :
  uniforms sh !! name = None →
  (∀ vars pboIndex (m : umap) ks g,
     drawImage fragment sh vars pboIndex m ks g
     = drawImage fragment sh vars pboIndex (delete name m)
         (filter (λ k, k ≠ name) ks) g
     ∧ (range_order m ks →
        range_order (delete name m) (filter (λ k, k ≠ name) ks)))
  ∧ (∀ r ks wd,
       (λ res, (res.1, gl res.2)) <$> Image fragment sh (Some r) ks wd
       = (λ res, (res.1, gl res.2))
           <$> Image fragment sh (Some r) (filter (λ k, k ≠ name) ks)
                 (map_delete r name wd))
  ∧ (∀ interval envs r ks fuel wd,
       observe <$> Animate fragment sh interval envs (Some r) ks fuel wd
       = observe <$> Animate fragment sh interval envs (Some r)
                       (λ i, filter (λ k, k ≠ name) (ks i)) fuel
                       (map_delete r name wd)).
Proof.
  intros Hname. split_and!.
  - intros vars pboIndex m ks g. split.
    + apply (drawImage_agree sh vars name). { done. }
      intros k Hk. by rewrite lookup_delete_ne.
    + apply range_order_delete.
  - intros r ks wd. unfold Image. simpl.
    pose proof (default_resolution_agree sh name r _ _ (map_delete_agree name r wd))
      as (Hg & Hv & Hm).
    rewrite <- Hg, <- Hv.
    rewrite <- (drawImage_agree sh _ name _ _ _ ks _ Hname Hm).
    destruct (drawImage fragment sh _ _ _ ks _) as [g|]; simpl; [|done].
    destruct (downloadImage sh 0 g) as [[img g']|]; simpl; done.
  - intros interval envs r ks fuel wd. unfold Animate. simpl.
    apply Animate_loop_agree; [done|].
    pose proof (map_delete_agree name r wd) as (Hg & Hv & Hm).
    unfold agree_off. simpl in *. by split_and!.
Qed.

(** ** The image that comes back *)


Lemma new_events_app before wd tr :
  GL.trace (gl wd) = before ++ tr → new_events before wd = tr.
Proof. intros Htr. unfold new_events. rewrite Htr. by rewrite drop_app_length. Qed.

Lemma with_resolution_other sh (m : umap) k :
  k ≠ "resolution" → with_resolution sh m !! k = m !! k.
Proof.
  intros Hk. unfold with_resolution. destruct (m !! "resolution"); [done|].
  by rewrite lookup_insert_ne.
Qed.

(** C8.  [Image], for any uniform map, nil included, on a ready shader
    and with setters that do not panic, returns an image.  The map it
    draws with has a [resolution] binding: the caller's when there is
    one, else the default, whose call pushes (float32(w), float32(h)) to
    the location it is given.  The call issues exactly one draw, the
    transfer request into the buffer of slot 0 and the readback of that
    same buffer, in this order, and the image holds the picture just
    drawn. *)
Theorem Image_renders_slot_0 sh uniformValues ks wd :
  ready sh (gl wd) → setters_safe sh (caller_map uniformValues wd) →
  ∃ img wd' u p0,
    Image fragment sh uniformValues ks wd = Some (img, wd')
    ∧ pbo_at sh 0 = Some p0
    ∧ (go_maps wd' !!! (or_new_map uniformValues wd).1) !! "resolution"
      = Some (default (ResolutionSetter (w sh) (h sh))
                (caller_map uniformValues wd !! "resolution"))
    ∧ (∀ vars loc u0,
         call_setter vars (ResolutionSetter (w sh) (h sh)) loc u0
         = Some (<[loc := UFloats [F32.of_Z (w sh); F32.of_Z (h sh)]]> u0))
    ∧ set_uniforms sh (go_vars wd)
        (range_entries (go_maps wd' !!! (or_new_map uniformValues wd).1) ks)
        (GL.uniform_values (gl wd)) = Some u
    ∧ new_events (GL.trace (gl wd)) wd'
      = [DrawArrays u; ReadPixels p0; GetBufferSubData p0]
    ∧ image.Pix img = rasterize fragment (w sh) (h sh) u.
Proof.
  intros Hr Hsafe.
  destruct (Image_spec sh uniformValues ks wd Hr Hsafe) as (u & p0 & Hu & Hp0 & HI).
  destruct (or_new_map_spec uniformValues wd) as (Hm & _ & _).
  eexists _, _, u, p0. split; [exact HI|]. simpl.
  rewrite default_resolution_map, Hm.
  split_and!; try done.
  - apply with_resolution_lookup.
  - by apply new_events_app.
Qed.

(** What the two bindings of the loop body do to a map. *)
Lemma with_time_lookup sh t (m : umap) :
  with_time sh t m !! "time" = Some (TimeSetter t)
  ∧ with_time sh t m !! "resolution"
    = Some (default (ResolutionSetter (w sh) (h sh)) (m !! "resolution"))
  ∧ ∀ k, k ≠ "time" → k ≠ "resolution" → with_time sh t m !! k = m !! k.
Proof.
  unfold with_time. split_and!.
  - by rewrite lookup_insert_eq.
  - rewrite lookup_insert_ne by done. apply with_resolution_lookup.
  - intros k Hk1 Hk2. rewrite lookup_insert_ne by done.
    by apply with_resolution_other.
Qed.


(** ** Steps of the loop, for the invariants below *)

Lemma body_step_cases sh interval uv t ks frame wd wd' read u b :
  body_step fragment sh interval uv t ks frame wd wd' read u b →
  (frame < len_pbos ∧ read = None
   ∧ GL.trace (gl wd') = GL.trace (gl wd) ++ [DrawArrays u; ReadPixels b])
  ∨ (len_pbos ≤ frame
     ∧ ∃ b' data,
         pbo_at sh ((frame - 1) `mod` len_pbos) = Some b' ∧ b' ≠ b
         ∧ GL.buffers (gl wd) !! b' = Some data
         ∧ read = Some (image.RGBA_ data (4 * w sh)
                          (image.Rectangle_ 0 0 (w sh) (h sh)))
         ∧ GL.trace (gl wd')
           = GL.trace (gl wd) ++ [DrawArrays u; ReadPixels b; GetBufferSubData b']).
Proof.
  intros Hbs. destruct (decide (frame < len_pbos)) as [Hlt|Hge].
  - left. destruct (step_prime _ _ _ _ _ _ _ _ _ _ _ _ Hbs Hlt). done.
  - right. split; [lia|]. apply (step_read _ _ _ _ _ _ _ _ _ _ _ _ Hbs). lia.
Qed.

Lemma ready_log sh g e : ready sh g → ready sh (GL.log e g).
Proof. intros []. constructor; done. Qed.

Lemma next_frame frame :
  0 ≤ frame < 2 ^ 64 →
  0 ≤ GoInt.to_uint64 (frame + 1) < 2 ^ 64
  ∧ (1 ≤ GoInt.to_uint64 (frame + 1) → GoInt.to_uint64 (frame + 1) = frame + 1).
Proof.
  intros Hf. split; [apply to_uint64_range|].
  destruct (decide (frame + 1 < 2 ^ 64)) as [Hlt|Hge].
  - intros _. apply to_uint64_small. lia.
  - assert (frame + 1 = 2 ^ 64) as -> by lia. unfold GoInt.to_uint64.
    rewrite Z.mod_same by lia. lia.
Qed.

Lemma loop_base_step sh interval uv t ks frame wd wd' read u b :
  loop_base sh uv frame wd →
  body_step fragment sh interval uv t ks frame wd wd' read u b →
  loop_base sh uv (GoInt.to_uint64 (frame + 1)) wd'
  ∧ ∀ e, loop_base sh uv (GoInt.to_uint64 (frame + 1))
           (set_gl (GL.log e (gl wd')) wd').
Proof.
  intros (Hr & Hsafe & Hf) Hbs. destruct (next_frame frame Hf) as [Hf' _].
  assert (setters_safe sh (go_maps wd' !!! uv)) as Hsafe'.
  { rewrite (step_map _ _ _ _ _ _ _ _ _ _ _ _ Hbs). by apply setters_safe_with_time. }
  pose proof (step_ready _ _ _ _ _ _ _ _ _ _ _ _ Hbs) as Hr'.
  unfold loop_base. split; [split_and!; auto; lia|]. intros e.
  split_and!; [by apply ready_log|done|lia|lia].
Qed.

Lemma loop_base_entry sh uniformValues wd :
  ready sh (gl wd) → setters_safe sh (caller_map uniformValues wd) →
  loop_base sh (or_new_map uniformValues wd).1 0
    (new_var 0 (or_new_map uniformValues wd).2).2.
Proof.
  intros Hr Hsafe. destruct (Animate_entry uniformValues wd) as (Hg & Hm & _).
  unfold loop_base. rewrite Hg, Hm. split_and!; try done; lia.
Qed.


(** ** The images that [Animate] sends *)



(** ** The caller's map after the calls *)

Lemma Animate_binds_map sh interval envs uniformValues ks fuel wd :
  ready sh (gl wd) → setters_safe sh (caller_map uniformValues wd) →
  (0 < fuel)%nat →
  ∃ r, Animate fragment sh interval envs uniformValues ks fuel wd = Some r
       ∧ go_maps (run_world r) !!! (or_new_map uniformValues wd).1
         = with_time sh (fresh (dom (go_vars wd))) (caller_map uniformValues wd)
       ∧ ∀ x, x ≠ (or_new_map uniformValues wd).1 →
              go_maps (run_world r) !! x = go_maps wd !! x.
Proof.
  intros Hr Hsafe Hfuel.
  set (uv := (or_new_map uniformValues wd).1).
  set (t := fresh (dom (go_vars wd))).
  set (m := caller_map uniformValues wd).
  destruct (Animate_entry uniformValues wd) as (_ & Hm & _ & _ & Hoth).
  destruct (Animate_inv sh interval uniformValues ks wd uv t
    (λ i frame sent wd1,
       loop_base sh uv frame wd1
       ∧ (∀ x, x ≠ uv → go_maps wd1 !! x = go_maps wd !! x)
       ∧ ((i = O ∧ go_maps wd1 !!! uv = m) ∨ go_maps wd1 !!! uv = with_time sh t m))
    (λ s j _ _ wd1,
       (∀ x, x ≠ uv → go_maps wd1 !! x = go_maps wd !! x)
       ∧ ((s = Running ∧ j = O) ∨ go_maps wd1 !!! uv = with_time sh t m)))
    with (fuel := fuel) (envs := envs) as (r & j & Hrun & _ & Hrunning & Hoth' & HE);
    try done.
  - intros i frame sent wd1 (Hb & _). destruct Hb as (? & ? & ?). done.
  - intros i frame sent wd1 (_ & Hx & [[Hi _] | Hmap]); auto.
  - intros i frame sent wd1 wd' read u b (Hb & Hx & Hmap) Hbs.
    destruct (loop_base_step _ _ _ _ _ _ _ _ _ _ _ Hb Hbs) as [Hb' Hb''].
    assert (go_maps wd' !!! uv = with_time sh t m) as Hmap'.
    { rewrite (step_map _ _ _ _ _ _ _ _ _ _ _ _ Hbs).
      destruct Hmap as [[_ Hmap] | Hmap]; rewrite Hmap; [done|]. apply with_time_idemp. }
    assert (∀ x, x ≠ uv → go_maps wd' !! x = go_maps wd !! x) as Hx'.
    { intros x Hne. rewrite (step_maps _ _ _ _ _ _ _ _ _ _ _ _ Hbs) by done. auto. }
    destruct read; split_and!; auto.
  - split_and!; [by apply loop_base_entry|done|by left].
  - exists r. split; [done|]. split; [|done].
    destruct HE as [[Hs ->]|HE]; [|done]. specialize (Hrunning Hs). lia.
Qed.

(** C10.  [Image] and [Animate] write into the map object of the caller
    (the reference [r] is not nil).  After [Image] the object binds
    [resolution], to what it was bound to or else to the default, and
    the other names as before.  After [Animate], however it stopped
    (returned, blocked or still running) once a first iteration has
    begun, the object binds [time] to the closure over the accumulator,
    [resolution] as for [Image], and the other names as before. *)
Theorem caller_map_mutated_in_place sh r wd :
  ready sh (gl wd) → setters_safe sh (go_maps wd !!! r) →
  (∀ ks, ∃ img wd',
     Image fragment sh (Some r) ks wd = Some (img, wd')
     ∧ (go_maps wd' !!! r) !! "resolution"
       = Some (default (ResolutionSetter (w sh) (h sh))
                 ((go_maps wd !!! r) !! "resolution"))
     ∧ ∀ k, k ≠ "resolution" → (go_maps wd' !!! r) !! k = (go_maps wd !!! r) !! k)
  ∧ (∀ interval envs ks fuel, (0 < fuel)%nat →
     ∃ run,
       Animate fragment sh interval envs (Some r) ks fuel wd = Some run
       ∧ (go_maps (run_world run) !!! r) !! "time"
         = Some (TimeSetter (fresh (dom (go_vars wd))))
       ∧ (go_maps (run_world run) !!! r) !! "resolution"
         = Some (default (ResolutionSetter (w sh) (h sh))
                   ((go_maps wd !!! r) !! "resolution"))
       ∧ ∀ k, k ≠ "time" → k ≠ "resolution" →
              (go_maps (run_world run) !!! r) !! k = (go_maps wd !!! r) !! k).
Proof.
  intros Hr Hsafe. split.
  - intros ks.
    destruct (Image_spec sh (Some r) ks wd Hr Hsafe) as (u & p0 & _ & _ & HI).
    eexists _, _. split; [exact HI|]. simpl. rewrite default_resolution_map.
    split; [apply with_resolution_lookup|]. intros k Hk.
    by apply with_resolution_other.
  - intros interval envs ks fuel Hfuel.
    destruct (Animate_binds_map sh interval envs (Some r) ks fuel wd Hr Hsafe Hfuel)
      as (run & Hrun & Hmap & _).
    exists run. split; [done|]. simpl in Hmap. rewrite Hmap.
    apply with_time_lookup.
Qed.

(** ** Reading a trace that grows *)

Lemma draws_app tr1 tr2 : draws (tr1 ++ tr2) = draws tr1 ++ draws tr2.
Proof. apply omap_app. Qed.

Lemma sends_app tr1 tr2 : sends (tr1 ++ tr2) = sends tr1 ++ sends tr2.
Proof. apply omap_app. Qed.

Lemma readbacks_app tr1 tr2 : readbacks (tr1 ++ tr2) = readbacks tr1 ++ readbacks tr2.
Proof. apply omap_app. Qed.

Lemma gl_calls_app tr1 tr2 : gl_calls (tr1 ++ tr2) = gl_calls tr1 ++ gl_calls tr2.
Proof. apply omap_app. Qed.



(** ** Which frame each image of [Animate] shows *)


(** ** How far behind its transfer request a readback is *)

Lemma readback_lags_app past tr1 tr2 :
  readback_lags past (tr1 ++ tr2)
  = readback_lags past tr1 ++ readback_lags (reverse tr1 ++ past) tr2.
Proof.
  revert past. induction tr1 as [|e tr1 IH]; intros past; [done|].
  simpl. rewrite IH, reverse_cons, <- !app_assoc. done.
Qed.

Lemma Animate_lags sh interval envs uniformValues ks fuel wd :
  ready sh (gl wd) → setters_safe sh (caller_map uniformValues wd) →
  ∃ r tr,
    Animate fragment sh interval envs uniformValues ks fuel wd = Some r
    ∧ GL.trace (gl (run_world r)) = GL.trace (gl wd) ++ tr
    ∧ readback_lags (reverse (GL.trace (gl wd))) tr
      = replicate (length (readbacks tr)) (Some 1%nat).
Proof.
  intros Hr Hsafe.
  set (uv := (or_new_map uniformValues wd).1).
  set (t := fresh (dom (go_vars wd))).
  set (tr0 := GL.trace (gl wd)).
  destruct (Animate_entry uniformValues wd) as (Hg & _).
  destruct (Animate_inv sh interval uniformValues ks wd uv t
    (λ i frame sent wd1,
       loop_base sh uv frame wd1
       ∧ ∃ tr, GL.trace (gl wd1) = tr0 ++ tr
         ∧ readback_lags (reverse tr0) tr
           = replicate (length (readbacks tr)) (Some 1%nat)
         ∧ (1 ≤ frame → ∃ b,
              pbo_at sh ((frame - 1) `mod` len_pbos) = Some b
              ∧ transfers_since b (reverse (tr0 ++ tr)) = Some O))
    (λ _ _ _ _ wd1,
       ∃ tr, GL.trace (gl wd1) = tr0 ++ tr
         ∧ readback_lags (reverse tr0) tr
           = replicate (length (readbacks tr)) (Some 1%nat)))
    with (fuel := fuel) (envs := envs)
    as (r & j & Hrun & _ & _ & tr & Htr & Hlags); try done.
  - intros i frame sent wd1 (Hb & _). destruct Hb as (? & ? & ?). done.
  - intros i frame sent wd1 (_ & tr & Htr & Hlags & _). by exists tr.
  - intros i frame sent wd1 wd' read u b (Hb & tr & Htr & Hlags & Hlast) Hbs.
    destruct (loop_base_step _ _ _ _ _ _ _ _ _ _ _ Hb Hbs) as [Hb' Hb''].
    assert (Hf : 0 ≤ frame < 2 ^ 64) by apply Hb.
    destruct (next_frame frame Hf) as [_ Hnext].
    pose proof (step_slot _ _ _ _ _ _ _ _ _ _ _ _ Hbs) as Hslot.
    destruct (body_step_cases _ _ _ _ _ _ _ _ _ _ _ Hbs)
      as [(Hlt & -> & Htr')|(Hge & b' & data & Hb'at & Hne & Hdata & -> & Htr')].
    + split; [done|]. exists (tr ++ [DrawArrays u; ReadPixels b]).
      rewrite Htr', Htr, <- app_assoc. split; [done|].
      rewrite readback_lags_app, readbacks_app. simpl. rewrite !app_nil_r.
      split; [done|]. intros H1. exists b. rewrite (Hnext H1).
      replace (frame + 1 - 1) with frame by lia. split; [done|].
      rewrite app_assoc, reverse_app. simpl. by rewrite decide_True.
    + unfold len_pbos in Hge.
      set (tr1 := tr ++ [DrawArrays u; ReadPixels b; GetBufferSubData b']).
      assert (GL.trace (gl wd') = tr0 ++ tr1) as Htr1.
      { rewrite Htr', Htr. unfold tr1. by rewrite <- app_assoc. }
      destruct Hlast as (b0 & Hb0 & Hsince); [lia|].
      assert (b0 = b') as -> by congruence.
      assert (readback_lags (reverse tr0) tr1
              = replicate (length (readbacks tr1)) (Some 1%nat)) as Hlags1.
      { unfold tr1. rewrite readback_lags_app, readbacks_app, Hlags. simpl.
        rewrite length_app. simpl. rewrite decide_False by done.
        rewrite <- reverse_app, Hsince. simpl.
        by rewrite Nat.add_1_r, replicate_S_end. }
      assert (transfers_since b (reverse (tr0 ++ tr1)) = Some O) as Hsince1.
      { unfold tr1. rewrite app_assoc, reverse_app. simpl. by rewrite decide_True. }
      split_and!; try (by exists tr1); [done|].
      exists (tr1 ++ [Send data]). simpl. rewrite Htr1, <- app_assoc.
      split; [done|].
      rewrite readback_lags_app, readbacks_app, Hlags1. simpl. rewrite !app_nil_r.
      split; [done|]. intros H1. exists b. rewrite (Hnext H1).
      replace (frame + 1 - 1) with frame by lia. split; [done|].
      rewrite app_assoc, reverse_app. simpl. done.
  - split; [by apply loop_base_entry|]. exists []. rewrite Hg.
    unfold tr0. rewrite app_nil_r. simpl. split_and!; try done; lia.
  - exists r, tr. done.
Qed.

(** ** When the first image is sent *)

Lemma draws_before_first_send_app_Some tr new n :
  draws_before_first_send tr = Some n →
  draws_before_first_send (tr ++ new) = Some n.
Proof.
  revert n. induction tr as [|e tr IH]; intros n; [done|].
  destruct e; simpl; try apply IH; [|done].
  destruct (draws_before_first_send tr) as [m|] eqn:Hm; [|done].
  intros [= <-]. by rewrite (IH m).
Qed.

Lemma draws_before_first_send_app_None tr new :
  draws_before_first_send tr = None →
  draws_before_first_send (tr ++ new)
  = (λ k, length (draws tr) + k)%nat <$> draws_before_first_send new.
Proof.
  induction tr as [|e tr IH]; simpl.
  - intros _. by destruct (draws_before_first_send new).
  - destruct e; simpl; try apply IH; [|done].
    destruct (draws_before_first_send tr) as [m|] eqn:Hm; [done|].
    intros _. rewrite IH by done.
    by destruct (draws_before_first_send new).
Qed.

Lemma Animate_first_send sh interval envs uniformValues ks fuel wd :
  ready sh (gl wd) → setters_safe sh (caller_map uniformValues wd) →
  ∃ r tr,
    Animate fragment sh interval envs uniformValues ks fuel wd = Some r
    ∧ GL.trace (gl (run_world r)) = GL.trace (gl wd) ++ tr
    ∧ ((sends tr = [] ∧ draws_before_first_send tr = None)
       ∨ draws_before_first_send tr = Some 4%nat).
Proof.
  intros Hr Hsafe.
  set (uv := (or_new_map uniformValues wd).1).
  set (t := fresh (dom (go_vars wd))).
  set (tr0 := GL.trace (gl wd)).
  destruct (Animate_entry uniformValues wd) as (Hg & _).
  destruct (Animate_inv sh interval uniformValues ks wd uv t
    (λ i frame sent wd1,
       loop_base sh uv frame wd1
       ∧ ∃ tr, GL.trace (gl wd1) = tr0 ++ tr
         ∧ ((sends tr = [] ∧ draws_before_first_send tr = None
             ∧ length (draws tr) = i ∧ (i ≤ 3)%nat ∧ frame = Z.of_nat i)
            ∨ draws_before_first_send tr = Some 4%nat))
    (λ _ _ _ _ wd1,
       ∃ tr, GL.trace (gl wd1) = tr0 ++ tr
         ∧ ((sends tr = [] ∧ draws_before_first_send tr = None)
            ∨ draws_before_first_send tr = Some 4%nat)))
    with (fuel := fuel) (envs := envs)
    as (r & j & Hrun & _ & _ & tr & Htr & Hfirst); try done.
  - intros i frame sent wd1 (Hb & _). destruct Hb as (? & ? & ?). done.
  - intros i frame sent wd1 (_ & tr & Htr & [(? & ? & _)|?]); exists tr; auto.
  - intros i frame sent wd1 wd' read u b (Hb & tr & Htr & Hfirst) Hbs.
    destruct (loop_base_step _ _ _ _ _ _ _ _ _ _ _ Hb Hbs) as [Hb' Hb''].
    destruct (body_step_cases _ _ _ _ _ _ _ _ _ _ _ Hbs)
      as [(Hlt & -> & Htr')|(Hge & b' & data & Hb'at & Hne & Hdata & -> & Htr')].
    + split; [done|]. exists (tr ++ [DrawArrays u; ReadPixels b]).
      rewrite Htr', Htr, <- app_assoc. split; [done|].
      destruct Hfirst as [(Hs & Hd & Hlen & Hi & Hfi)|Hd].
      * left. unfold len_pbos in Hlt.
        rewrite sends_app, Hs, draws_app, length_app,
          draws_before_first_send_app_None by done.
        simpl. split_and!; try done; try lia.
        rewrite to_uint64_small; lia.
      * right. by apply draws_before_first_send_app_Some.
    + unfold len_pbos in Hge.
      set (tr1 := tr ++ [DrawArrays u; ReadPixels b; GetBufferSubData b']).
      assert (GL.trace (gl wd') = tr0 ++ tr1) as Htr1.
      { rewrite Htr', Htr. unfold tr1. by rewrite <- app_assoc. }
      assert ((sends tr1 = [] ∧ draws_before_first_send tr1 = None
               ∧ length (draws tr1) = 4%nat)
              ∨ draws_before_first_send tr1 = Some 4%nat) as Hfirst1.
      { destruct Hfirst as [(Hs & Hd & Hlen & Hi & Hfi)|Hd].
        - left. unfold tr1.
          rewrite sends_app, Hs, draws_app, length_app,
            draws_before_first_send_app_None by done.
          simpl. split_and!; try done; lia.
        - right. by apply draws_before_first_send_app_Some. }
      split_and!.
      * exists tr1. split; [done|]. destruct Hfirst1 as [(? & ? & _)|?]; auto.
      * exists tr1. split; [done|]. destruct Hfirst1 as [(? & ? & _)|?]; auto.
      * done.
      * exists (tr1 ++ [Send data]). simpl. rewrite Htr1, <- app_assoc.
        split; [done|]. right.
        destruct Hfirst1 as [(Hs & Hd & Hlen)|Hd].
        -- rewrite draws_before_first_send_app_None by done. simpl.
           rewrite Hlen. done.
        -- by apply draws_before_first_send_app_Some.
  - split; [by apply loop_base_entry|]. exists []. rewrite Hg.
    unfold tr0. rewrite app_nil_r. simpl. split; [done|]. left.
    split_and!; try done. lia.
  - exists r, tr. done.
Qed.

(** ** The schedule of the ring *)

Lemma ring_slot_spec sh frame :
  pbo_at sh (frame `mod` len_pbos) = Some (ring_slot sh frame).
Proof.
  unfold ring_slot. by destruct (pbo_at_mod sh frame) as [b ->].
Qed.

Lemma to_uint64_succ z :
  GoInt.to_uint64 (GoInt.to_uint64 z + 1) = GoInt.to_uint64 (z + 1).
Proof. unfold GoInt.to_uint64. by rewrite Zplus_mod_idemp_l. Qed.

Lemma to_uint64_pred z :
  1 ≤ GoInt.to_uint64 z → GoInt.to_uint64 z - 1 = GoInt.to_uint64 (z - 1).
Proof.
  unfold GoInt.to_uint64. intros Hz.
  pose proof (Z.mod_pos_bound z (2 ^ 64)).
  rewrite <- (Zminus_mod_idemp_l z 1). rewrite (Z.mod_small (_ - 1)); lia.
Qed.

Lemma body_step_calls sh interval uv t ks frame wd wd' read u b :
  body_step fragment sh interval uv t ks frame wd wd' read u b →
  GL.trace (gl wd') = GL.trace (gl wd) ++ iteration_calls sh frame u.
Proof.
  intros Hbs. unfold iteration_calls.
  pose proof (step_slot _ _ _ _ _ _ _ _ _ _ _ _ Hbs) as Hslot.
  rewrite ring_slot_spec in Hslot. injection Hslot as ->.
  destruct (body_step_cases _ _ _ _ _ _ _ _ _ _ _ Hbs)
    as [(Hlt & -> & Htr')|(Hge & b' & data & Hb'at & Hne & Hdata & -> & Htr')].
  - rewrite decide_True by done. by rewrite app_nil_r.
  - rewrite decide_False by lia.
    rewrite ring_slot_spec in Hb'at. injection Hb'at as ->. done.
Qed.

Lemma gl_calls_iteration sh frame u :
  gl_calls (iteration_calls sh frame u) = iteration_calls sh frame u
  ∧ draws (iteration_calls sh frame u) = [u].
Proof. unfold iteration_calls. by case_decide. Qed.

Lemma Animate_schedule sh interval envs uniformValues ks fuel wd :
  ready sh (gl wd) → setters_safe sh (caller_map uniformValues wd) →
  ∃ r tr,
    Animate fragment sh interval envs uniformValues ks fuel wd = Some r
    ∧ GL.trace (gl (run_world r)) = GL.trace (gl wd) ++ tr
    ∧ gl_calls tr
      = concat (imap (λ i u, iteration_calls sh (GoInt.to_uint64 (Z.of_nat i)) u)
                  (draws tr)).
Proof.
  intros Hr Hsafe.
  set (uv := (or_new_map uniformValues wd).1).
  set (t := fresh (dom (go_vars wd))).
  set (tr0 := GL.trace (gl wd)).
  set (sched := λ tr,
         concat (imap (λ i u, iteration_calls sh (GoInt.to_uint64 (Z.of_nat i)) u)
                   (draws tr))).
  destruct (Animate_entry uniformValues wd) as (Hg & _).
  destruct (Animate_inv sh interval uniformValues ks wd uv t
    (λ i frame sent wd1,
       loop_base sh uv frame wd1
       ∧ frame = GoInt.to_uint64 (Z.of_nat i)
       ∧ ∃ tr, GL.trace (gl wd1) = tr0 ++ tr
         ∧ length (draws tr) = i ∧ gl_calls tr = sched tr)
    (λ _ _ _ _ wd1,
       ∃ tr, GL.trace (gl wd1) = tr0 ++ tr ∧ gl_calls tr = sched tr))
    with (fuel := fuel) (envs := envs)
    as (r & j & Hrun & _ & _ & tr & Htr & Hsched); try done.
  - intros i frame sent wd1 (Hb & _). destruct Hb as (? & ? & ?). done.
  - intros i frame sent wd1 (_ & _ & tr & Htr & _ & Hsched). by exists tr.
  - intros i frame sent wd1 wd' read u b (Hb & Hfi & tr & Htr & Hlen & Hsched) Hbs.
    destruct (loop_base_step _ _ _ _ _ _ _ _ _ _ _ Hb Hbs) as [Hb' Hb''].
    pose proof (body_step_calls _ _ _ _ _ _ _ _ _ _ _ Hbs) as Htr'.
    destruct (gl_calls_iteration sh frame u) as [Hgc Hdr].
    assert (GoInt.to_uint64 (frame + 1) = GoInt.to_uint64 (Z.of_nat (S i))) as Hfi'.
    { rewrite Hfi, to_uint64_succ. f_equal. lia. }
    set (tr1 := tr ++ iteration_calls sh frame u).
    assert (GL.trace (gl wd') = tr0 ++ tr1) as Htr1.
    { rewrite Htr', Htr. unfold tr1. by rewrite <- app_assoc. }
    assert (length (draws tr1) = S i) as Hlen1.
    { unfold tr1. rewrite draws_app, Hdr, length_app. simpl. lia. }
    assert (gl_calls tr1 = sched tr1) as Hsched1.
    { unfold tr1, sched. rewrite gl_calls_app, draws_app, Hgc, Hdr, imap_app, concat_app.
      simpl. rewrite app_nil_r, Nat.add_0_r, Hlen, <- Hfi. by rewrite Hsched. }
    destruct read as [img|].
    + split_and!; try (by exists tr1); try done.
      exists (tr1 ++ [Send (image.Pix img)]). simpl. rewrite Htr1, <- app_assoc.
      split; [done|]. unfold sched.
      rewrite gl_calls_app, draws_app. simpl. rewrite !app_nil_r. done.
    + split_and!; try done. by exists tr1.
  - split; [by apply loop_base_entry|]. split; [done|]. exists []. rewrite Hg.
    unfold tr0. by rewrite app_nil_r.
  - exists r, tr. done.
Qed.

(** C4.  On a shader that is ready and with setters that do not panic:
    a pass through the loop body at frame counter [frame] issues the
    draw, then the transfer request into the buffer of ring slot
    [frame mod 3], then, when [frame] is at least 3, the readback of the
    buffer of slot [(frame - 1) mod 3], a different buffer.  A run of
    [Animate] is these passes for the frame counters 0, 1, 2, ... (modulo
    2^64) in turn, so the buffer read in a pass is the one into which
    the pass before it requested its transfer. *)
Theorem Animate_ring_schedule sh interval envs uniformValues ks fuel wd :
  ready sh (gl wd) → setters_safe sh (caller_map uniformValues wd) →
  (∀ frame, pbo_at sh (frame `mod` len_pbos) = Some (ring_slot sh frame))
  ∧ (∀ frame, ring_slot sh (frame - 1) ≠ ring_slot sh frame)
  ∧ (∀ uv t ks1 frame wd1,
       ready sh (gl wd1) → setters_safe sh (go_maps wd1 !!! uv) →
       ∃ wd' read u,
         Animate_body fragment sh interval uv t ks1 frame wd1 = Some (wd', read)
         ∧ new_events (GL.trace (gl wd1)) wd' = iteration_calls sh frame u)
  ∧ (∀ i : nat,
       len_pbos ≤ GoInt.to_uint64 (Z.of_nat i) →
       GoInt.to_uint64 (Z.of_nat i) - 1 = GoInt.to_uint64 (Z.of_nat i - 1))
  ∧ ∃ r,
      Animate fragment sh interval envs uniformValues ks fuel wd = Some r
      ∧ gl_calls (new_events (GL.trace (gl wd)) (run_world r))
        = concat (imap (λ i u, iteration_calls sh (GoInt.to_uint64 (Z.of_nat i)) u)
                    (draws (new_events (GL.trace (gl wd)) (run_world r)))).
Proof.
  intros Hr Hsafe. split_and!.
  - apply ring_slot_spec.
  - intros frame Heq. destruct Hr.
    by apply (pbo_at_pred_ne sh frame (ring_slot sh frame) (ring_slot sh (frame - 1)));
      try apply ring_slot_spec.
  - intros uv t ks1 frame wd1 Hr1 Hsafe1.
    destruct (Animate_body_step sh interval uv t ks1 frame wd1 Hr1 Hsafe1)
      as (wd' & read & u & b & Hbody & Hbs).
    exists wd', read, u. split; [done|].
    apply new_events_app. by eapply body_step_calls.
  - intros i Hi. apply to_uint64_pred. unfold len_pbos in Hi. lia.
  - destruct (Animate_schedule sh interval envs uniformValues ks fuel wd Hr Hsafe)
      as (r & tr & Hrun & Htr & Hsched).
    exists r. split; [done|]. by rewrite (new_events_app _ _ _ Htr).
Qed.

(** ** How far behind the draw the readback and the first image are *)

(** C2, as amended.  On a shader that is ready and with setters that do
    not panic, [Animate] runs, and for every readback that it makes,
    exactly one transfer request into another buffer was issued between
    the transfer request into the buffer read and the readback: the
    request of the current iteration.  The buffer read is the one that
    the iteration before requested its transfer into. *)
Theorem Animate_reads_one_transfer_behind sh interval envs uniformValues ks fuel wd :
  ready sh (gl wd) → setters_safe sh (caller_map uniformValues wd) →
  ∃ r,
    Animate fragment sh interval envs uniformValues ks fuel wd = Some r
    ∧ readback_lags (reverse (GL.trace (gl wd)))
        (new_events (GL.trace (gl wd)) (run_world r))
      = replicate
          (length (readbacks (new_events (GL.trace (gl wd)) (run_world r))))
          (Some 1%nat).
Proof.
  intros Hr Hsafe.
  destruct (Animate_lags sh interval envs uniformValues ks fuel wd Hr Hsafe)
    as (r & tr & Hrun & Htr & Hlags).
  exists r. by rewrite (new_events_app _ _ _ Htr).
Qed.

(** C3, as amended.  On a shader that is ready and with setters that do
    not panic: a pass through the loop body reads no buffer back, and
    yields no image, exactly when its frame counter is below 3, which is
    the case in the first three iterations (frames 0, 1 and 2); and in a
    run of [Animate], either no image is sent, or exactly four draws are
    issued before the first send. *)
Theorem Animate_primes_for_three_frames sh interval envs uniformValues ks fuel wd :
  ready sh (gl wd) → setters_safe sh (caller_map uniformValues wd) →
  (∀ uv t ks1 frame wd1,
     ready sh (gl wd1) → setters_safe sh (go_maps wd1 !!! uv) →
     ∃ wd' read,
       Animate_body fragment sh interval uv t ks1 frame wd1 = Some (wd', read)
       ∧ (read = None ↔ frame < len_pbos)
       ∧ (readbacks (new_events (GL.trace (gl wd1)) wd') = [] ↔ frame < len_pbos))
  ∧ ∃ r,
      Animate fragment sh interval envs uniformValues ks fuel wd = Some r
      ∧ ((sends (new_events (GL.trace (gl wd)) (run_world r)) = []
          ∧ draws_before_first_send (new_events (GL.trace (gl wd)) (run_world r))
            = None)
         ∨ draws_before_first_send (new_events (GL.trace (gl wd)) (run_world r))
           = Some 4%nat).
Proof.
  intros Hr Hsafe. split.
  - intros uv t ks1 frame wd1 Hr1 Hsafe1.
    destruct (Animate_body_step sh interval uv t ks1 frame wd1 Hr1 Hsafe1)
      as (wd' & read & u & b & Hbody & Hbs).
    exists wd', read. split; [done|].
    destruct (body_step_cases _ _ _ _ _ _ _ _ _ _ _ Hbs)
      as [(Hlt & -> & Htr')|(Hge & b' & data & Hb'at & Hne & Hdata & -> & Htr')];
      rewrite (new_events_app _ _ _ Htr'); simpl.
    + done.
    + split; split; try done; lia.
  - destruct (Animate_first_send sh interval envs uniformValues ks fuel wd Hr Hsafe)
      as (r & tr & Hrun & Htr & Hfirst).
    exists r. by rewrite (new_events_app _ _ _ Htr).
Qed.

(** ** Cancellation *)


Lemma Animate_loop_prime sh interval uv t ks fuel envs i frame sent wd wd' :
  Animate_body fragment sh interval uv t (ks i) frame wd = Some (wd', None) →
  Animate_loop fragment sh interval uv t ks (S fuel) envs i frame sent wd
  = Animate_loop fragment sh interval uv t ks fuel envs (S i)
      (GoInt.to_uint64 (frame + 1)) sent wd'.
Proof. intros Hbody. simpl. by rewrite Hbody. Qed.

Lemma Animate_loop_select sh interval uv t ks fuel envs i frame sent wd wd' img :
  Animate_body fragment sh interval uv t (ks i) frame wd = Some (wd', Some img) →
  Animate_loop fragment sh interval uv t ks (S fuel) envs i frame sent wd
  = match envs with
    | [] => Some (Run Blocked sent frame wd')
    | e :: envs =>
        match go_select e with
        | None => Some (Run Blocked sent frame wd')
        | Some CaseCancel => Some (Run Returned sent frame wd')
        | Some CaseSend =>
            Animate_loop fragment sh interval uv t ks fuel envs (S i)
              (GoInt.to_uint64 (frame + 1)) (sent ++ [img])
              (set_gl (GL.log (Send (image.Pix img)) (gl wd')) wd')
        end
    end.
Proof. intros Hbody. simpl. by rewrite Hbody. Qed.



Lemma Animate_unfold sh interval envs uniformValues ks fuel wd :
  Animate fragment sh interval envs uniformValues ks fuel wd
  = Animate_loop fragment sh interval (or_new_map uniformValues wd).1
      (fresh (dom (go_vars wd))) ks fuel envs 0 0 []
      (new_var 0 (or_new_map uniformValues wd).2).2.
Proof.
  unfold Animate. destruct (or_new_map_spec uniformValues wd) as (_ & Hv & _).
  destruct (or_new_map uniformValues wd) as [uv wd0]. unfold new_var.
  cbn [fst snd] in *. by rewrite Hv.
Qed.


(** ** The value of [time] at each draw *)

(** The closure bound to [time] reads the accumulator when [drawImage]
    calls it, that is after [t += interval] (line 165): when the program
    has a [time] uniform that no other binding touches, the draw ends
    with that uniform at the accumulator's current value. *)
Lemma set_uniforms_time sh vars t (m : umap) ks u u' un :
  uniforms sh !! "time" = Some un →
  m !! "time" = Some (TimeSetter t) →
  time_exclusive sh (Location un) m →
  "time" ∈ ks →
  set_uniforms sh vars (range_entries m ks) u = Some u' →
  u' !! Location un = Some (UFloats [seconds (vars !!! t)]).
Proof.
  intros Hun Ht Hex.
  assert (Hkeep : ∀ ks u u',
            u !! Location un = Some (UFloats [seconds (vars !!! t)]) →
            set_uniforms sh vars (range_entries m ks) u = Some u' →
            u' !! Location un = Some (UFloats [seconds (vars !!! t)])).
  { clear ks u u'. induction ks as [|k ks IH]; intros u u' Hu; [by intros [= <-]|].
    rewrite range_entries_cons. destruct (m !! k) as [s|] eqn:Hk; [|by apply IH].
    simpl. destruct (uniforms sh !! k) as [un'|] eqn:Hk'; [|by apply IH].
    destruct (call_setter vars s (Location un') u) as [u1|] eqn:Hcall; [|done].
    simpl. apply IH. destruct (decide (k = "time")) as [->|Hne].
    - assert (s = TimeSetter t) as -> by congruence.
      assert (un' = un) as -> by congruence.
      simpl in Hcall. injection Hcall as <-. by rewrite lookup_insert_eq.
    - by rewrite (Hex k s un' vars u u1 Hne Hk Hk' Hcall). }
  revert u u'. induction ks as [|k ks IH]; intros u u' Hin; [by apply elem_of_nil in Hin|].
  rewrite range_entries_cons. destruct (decide (k = "time")) as [->|Hne].
  - rewrite Ht. simpl. rewrite Hun. simpl. apply Hkeep. by rewrite lookup_insert_eq.
  - apply elem_of_cons in Hin as [Heq|Hin]; [done|].
    destruct (m !! k) as [s|] eqn:Hk; [|by apply IH].
    simpl. destruct (uniforms sh !! k) as [un'|] eqn:Hk'; [|by apply IH].
    destruct (call_setter vars s (Location un') u) as [u1|] eqn:Hcall; [|done].
    simpl. by apply IH.
Qed.

Lemma time_exclusive_with_time sh loc t (m : umap) :
  time_exclusive sh loc (with_resolution sh m) →
  time_exclusive sh loc (with_time sh t m).
Proof.
  intros Hex name s un vars u u' Hne Hm. unfold with_time in Hm.
  rewrite lookup_insert_ne in Hm by done. by apply Hex.
Qed.

(** The draw number [j] (from 0) of a run of [Animate] is drawn with
    [time] at [(j + 1) * interval]: one time step more than the
    accumulator held when the iteration began. *)
Lemma Animate_time_at_draw sh interval envs uniformValues ks fuel wd un :
  ready sh (gl wd) → setters_safe sh (caller_map uniformValues wd) →
  uniforms sh !! "time" = Some un →
  time_exclusive sh (Location un) (with_resolution sh (caller_map uniformValues wd)) →
  (∀ i, "time" ∈ ks i) →
  ∃ r,
    Animate fragment sh interval envs uniformValues ks fuel wd = Some r
    ∧ ∀ (j : nat) u,
        draws (new_events (GL.trace (gl wd)) (run_world r)) !! j = Some u →
        u !! Location un
        = Some (UFloats [seconds (GoInt.to_int64 ((Z.of_nat j + 1) * interval))]).
Proof.
  intros Hr Hsafe Hun Hex Hks.
  set (uv := (or_new_map uniformValues wd).1).
  set (t := fresh (dom (go_vars wd))).
  set (tr0 := GL.trace (gl wd)).
  set (m := caller_map uniformValues wd).
  set (timed := λ tr : list event, ∀ (j : nat) u,
         draws tr !! j = Some u →
         u !! Location un
         = Some (UFloats [seconds (GoInt.to_int64 ((Z.of_nat j + 1) * interval))])).
  destruct (Animate_entry uniformValues wd) as (Hg & Hm & Ht & _).
  destruct (Animate_inv sh interval uniformValues ks wd uv t
    (λ i frame sent wd1,
       loop_base sh uv frame wd1
       ∧ (go_maps wd1 !!! uv = m ∨ go_maps wd1 !!! uv = with_time sh t m)
       ∧ go_vars wd1 !!! t = GoInt.to_int64 (Z.of_nat i * interval)
       ∧ ∃ tr, GL.trace (gl wd1) = tr0 ++ tr ∧ length (draws tr) = i ∧ timed tr)
    (λ _ _ _ _ wd1, ∃ tr, GL.trace (gl wd1) = tr0 ++ tr ∧ timed tr))
    with (fuel := fuel) (envs := envs)
    as (r & j & Hrun & _ & _ & tr & Htr & Htimed); try done.
  - intros i frame sent wd1 (Hb & _). destruct Hb as (? & ? & ?). done.
  - intros i frame sent wd1 (_ & _ & _ & tr & Htr & _ & Htimed). by exists tr.
  - intros i frame sent wd1 wd' read u b (Hb & Hmap & Hacc & tr & Htr & Hlen & Htimed) Hbs.
    destruct (loop_base_step _ _ _ _ _ _ _ _ _ _ _ Hb Hbs) as [Hb' Hb''].
    assert (go_maps wd' !!! uv = with_time sh t m) as Hmap'.
    { rewrite (step_map _ _ _ _ _ _ _ _ _ _ _ _ Hbs).
      destruct Hmap as [Hmap | Hmap]; rewrite Hmap; [done|]. apply with_time_idemp. }
    assert (go_vars wd' !!! t = GoInt.to_int64 (Z.of_nat (S i) * interval)) as Hacc'.
    { rewrite (step_vars _ _ _ _ _ _ _ _ _ _ _ _ Hbs), lookup_total_insert_eq.
      rewrite Hacc, to_int64_add. f_equal. lia. }
    pose proof (step_uniforms _ _ _ _ _ _ _ _ _ _ _ _ Hbs) as Hu.
    rewrite Hmap' in Hu.
    apply (set_uniforms_time sh _ t _ _ _ _ un Hun) in Hu;
      [|by apply with_time_lookup|by apply time_exclusive_with_time|done].
    rewrite Hacc' in Hu.
    pose proof (body_step_calls _ _ _ _ _ _ _ _ _ _ _ Hbs) as Htr'.
    destruct (gl_calls_iteration sh frame u) as [_ Hdr].
    set (tr1 := tr ++ iteration_calls sh frame u).
    assert (GL.trace (gl wd') = tr0 ++ tr1) as Htr1.
    { rewrite Htr', Htr. unfold tr1. by rewrite <- app_assoc. }
    assert (length (draws tr1) = S i) as Hlen1.
    { unfold tr1. rewrite draws_app, Hdr, length_app. simpl. lia. }
    assert (timed tr1) as Htimed1.
    { intros j0 u0. unfold tr1. rewrite draws_app, Hdr.
      intros Hj0. apply lookup_app_Some in Hj0 as [Hj0|[Hge Hj0]]; [by apply Htimed|].
      apply list_lookup_singleton_Some in Hj0 as [Hj0 <-].
      rewrite Hu. by replace (Z.of_nat j0 + 1) with (Z.of_nat (S i)) by lia. }
    destruct read as [img|].
    + split_and!; try (by exists tr1); try done; auto.
      exists (tr1 ++ [Send (image.Pix img)]). simpl. rewrite Htr1, <- app_assoc.
      split; [done|]. rewrite draws_app. simpl. rewrite app_nil_r.
      split; [done|]. intros j0 u0. rewrite draws_app. simpl. rewrite app_nil_r.
      apply Htimed1.
    + split_and!; try done; auto. by exists tr1.
  - split; [by apply loop_base_entry|]. split; [by left|]. split; [exact Ht|].
    exists []. rewrite Hg. unfold tr0. rewrite app_nil_r.
    split_and!; try done.
  - exists r. split; [done|]. by rewrite (new_events_app _ _ _ Htr).
Qed.

(** ** Which frame, and which time, each image shows *)


(** ** Where the methods panic *)



(** One more iteration of the loop. *)
Lemma Animate_loop_S sh interval uv t ks fuel envs i frame sent wd :
  Animate_loop fragment sh interval uv t ks (S fuel) envs i frame sent wd
  = '(wd, read) ← Animate_body fragment sh interval uv t (ks i) frame wd;
    match read with
    | None =>
        Animate_loop fragment sh interval uv t ks fuel envs (S i)
          (GoInt.to_uint64 (frame + 1)) sent wd
    | Some img =>
        match envs with
        | [] => Some (Run Blocked sent frame wd)
        | e :: envs =>
            match go_select e with
            | None => Some (Run Blocked sent frame wd)
            | Some CaseCancel => Some (Run Returned sent frame wd)
            | Some CaseSend =>
                Animate_loop fragment sh interval uv t ks fuel envs (S i)
                  (GoInt.to_uint64 (frame + 1)) (sent ++ [img])
                  (set_gl (GL.log (Send (image.Pix img)) (gl wd)) wd)
            end
        end
    end.
Proof. done. Qed.




(** A setter that panics, bound to a name that the program has, makes
    the loop of [drawImage] panic when the [range] visits it. *)
Lemma set_uniforms_panics sh vars (m : umap) ks name un s u :
  uniforms sh !! name = Some un → m !! name = Some s →
  (∀ u, call_setter vars s (Location un) u = None) →
  name ∈ ks →
  set_uniforms sh vars (range_entries m ks) u = None.
Proof.
  intros Hun Hm Hs. revert u. induction ks as [|k ks IH]; intros u Hin.
  { by apply elem_of_nil in Hin. }
  unfold range_entries. simpl. fold (range_entries m ks).
  destruct (decide (k = name)) as [-> | Hne].
  - rewrite Hm. simpl. by rewrite Hun, Hs.
  - apply elem_of_cons in Hin as [-> | Hin]; [done|].
    destruct (m !! k) as [s'|]; simpl; [|by apply IH].
    destruct (uniforms sh !! k); [|by apply IH].
    destruct (call_setter vars s' _ u); simpl; [by apply IH | done].
Qed.

(** X2.  A setter of the caller that panics when it is called (a nil
    function value, for one), bound to a name that the program has,
    makes [Image] panic for every order of the [range] (an order visits
    every key of the map), and [Animate] in its first pass through the
    loop unless the name is [time], whose binding [Animate] replaces
    before it draws. *)
Theorem panicking_setter_of_active_uniform sh uniformValues wd name un f :
  uniforms sh !! name = Some un →
  caller_map uniformValues wd !! name = Some (CallerSetter f) →
  (∀ u, f (Location un) u = None) →
  (∀ ks, name ∈ ks → Image fragment sh uniformValues ks wd = None)
  ∧ (∀ interval envs ks fuel,
       name ≠ "time" → name ∈ ks O → (0 < fuel)%nat →
       Animate fragment sh interval envs uniformValues ks fuel wd = None).
Proof.
  intros Hun Hm Hf. split.
  - intros ks Hin. unfold Image.
    pose proof (or_new_map_spec uniformValues wd) as (Hmap & _).
    destruct (or_new_map uniformValues wd) as [uv wd1]. simpl in Hmap.
    unfold drawImage.
    rewrite (set_uniforms_panics sh _ _ ks name un (CallerSetter f)); try done.
    rewrite default_resolution_map, Hmap. unfold with_resolution.
    destruct (caller_map uniformValues wd !! "resolution") eqn:Hres; [done|].
    rewrite lookup_insert_ne; [done|]. intros <-. by rewrite Hres in Hm.
  - intros interval envs ks fuel Hne Hin Hfuel. rewrite Animate_unfold.
    destruct (Animate_entry uniformValues wd) as (_ & Hmap & _).
    destruct fuel as [|fuel]; [lia|].
    rewrite Animate_loop_S. unfold Animate_body, drawImage.
    rewrite (set_uniforms_panics sh _ _ (ks O) name un (CallerSetter f)); try done.
    rewrite Animate_bind_map, Hmap. unfold with_time.
    rewrite lookup_insert_ne by done. unfold with_resolution.
    destruct (caller_map uniformValues wd !! "resolution") eqn:Hres; [done|].
    rewrite lookup_insert_ne; [done|]. intros <-. by rewrite Hres in Hm.
Qed.

(** ** Setters that write their own uniform: order and repetition *)

Lemma write_all_snoc ws w u :
  write_all (ws ++ [w]) u = <[w.1 := w.2]> (write_all ws u).
Proof. unfold write_all. by rewrite foldl_app. Qed.

(** A list of writes either fixes the value at a location or leaves it. *)
Lemma write_all_lookup ws loc :
  (∃ v, ∀ u, write_all ws u !! loc = Some v)
  ∨ (∀ u, write_all ws u !! loc = u !! loc).
Proof.
  induction ws as [|w ws IH] using rev_ind; [by right|].
  destruct (decide (w.1 = loc)) as [<- | Hne].
  - left. exists (w.2). intros u. by rewrite write_all_snoc, lookup_insert_eq.
  - destruct IH as [[v Hv] | Hu]; [left; exists v | right]; intros u;
      rewrite write_all_snoc, lookup_insert_ne by done; auto.
Qed.

Lemma write_all_idemp ws u : write_all ws (write_all ws u) = write_all ws u.
Proof.
  apply map_eq. intros loc.
  destruct (write_all_lookup ws loc) as [[v Hv] | Hu].
  - by rewrite !Hv.
  - by rewrite Hu.
Qed.

(** With such setters the loop of [drawImage] is a list of writes that
    does not depend on the values in the store. *)
Lemma set_uniforms_plain sh vars (m : umap) ks :
  plain_writes sh vars m →
  ∃ ws, ∀ u, set_uniforms sh vars (range_entries m ks) u = Some (write_all ws u).
Proof.
  intros Hplain. induction ks as [|k ks [ws IH]]; [by exists []|].
  rewrite range_entries_cons. destruct (m !! k) as [s|] eqn:Hk; [|by exists ws].
  simpl. specialize (Hplain k s Hk). unfold plain_write in Hplain.
  destruct (uniforms sh !! k) as [un|]; [|by exists ws].
  destruct Hplain as [v Hv]. exists ((Location un, v) :: ws). intros u.
  rewrite Hv. simpl. by rewrite IH.
Qed.

Lemma plain_writes_safe sh vars (m : umap) :
  plain_writes sh vars m → setters_safe sh m.
Proof.
  intros Hplain k s Hk. specialize (Hplain k s Hk).
  unfold plain_write in Hplain. unfold setter_safe.
  destruct s as [f| |]; [|done..].
  destruct (uniforms sh !! k) as [un|]; [|done].
  destruct Hplain as [v Hv]. intros u. specialize (Hv u). simpl in Hv. by eexists.
Qed.

Lemma plain_writes_with_resolution sh vars (m : umap) :
  plain_writes sh vars m → plain_writes sh vars (with_resolution sh m).
Proof.
  intros Hplain. unfold with_resolution. destruct (m !! "resolution"); [done|].
  apply map_Forall_insert_2; [|done]. unfold plain_write.
  destruct (uniforms sh !! "resolution"); [|done]. by eexists.
Qed.

(** Two neighbours in the order of the [range] can be exchanged. *)
Lemma set_uniforms_swap sh vars (m : umap) x y ks u :
  plain_writes sh vars m → distinct_locations sh m →
  set_uniforms sh vars (range_entries m (x :: y :: ks)) u
  = set_uniforms sh vars (range_entries m (y :: x :: ks)) u.
Proof.
  intros Hplain Hdist. destruct (decide (x = y)) as [-> | Hne]; [done|].
  rewrite !range_entries_cons.
  destruct (m !! x) as [sx|] eqn:Hx, (m !! y) as [sy|] eqn:Hy; try done.
  pose proof (Hplain x sx Hx) as Hpx. pose proof (Hplain y sy Hy) as Hpy.
  unfold plain_write in Hpx, Hpy. simpl.
  destruct (uniforms sh !! x) as [ux|] eqn:Hux,
           (uniforms sh !! y) as [uy|] eqn:Huy; try done.
  destruct Hpx as [vx Hvx], Hpy as [vy Hvy].
  rewrite Hvx, Hvy. simpl. rewrite Hvx, Hvy. simpl.
  rewrite insert_insert_ne; [done|].
  intros Hloc. apply Hne. eapply (Hdist x y); eauto.
Qed.

Lemma set_uniforms_skip sh vars (m : umap) k ks1 ks2 :
  (∀ u, set_uniforms sh vars (range_entries m ks1) u
        = set_uniforms sh vars (range_entries m ks2) u) →
  ∀ u, set_uniforms sh vars (range_entries m (k :: ks1)) u
       = set_uniforms sh vars (range_entries m (k :: ks2)) u.
Proof.
  intros Heq u. rewrite !range_entries_cons. destruct (m !! k); [|done].
  simpl. destruct (uniforms sh !! k); [|done].
  destruct (call_setter vars _ _ u); simpl; done.
Qed.

Lemma set_uniforms_perm sh vars (m : umap) ks1 ks2 :
  plain_writes sh vars m → distinct_locations sh m → ks1 ≡ₚ ks2 →
  ∀ u, set_uniforms sh vars (range_entries m ks1) u
       = set_uniforms sh vars (range_entries m ks2) u.
Proof.
  intros Hplain Hdist Hperm.
  induction Hperm as [|k ks1 ks2 _ IH|x y ks|ks1 ks2 ks3 _ IH1 _ IH2]; intros u.
  - done.
  - by apply set_uniforms_skip.
  - by apply set_uniforms_swap.
  - by rewrite IH1.
Qed.

Lemma range_order_perm (m : umap) ks1 ks2 :
  range_order m ks1 → range_order m ks2 → ks1 ≡ₚ ks2.
Proof.
  intros [Hnd1 Hdom1] [Hnd2 Hdom2]. apply NoDup_Permutation; [done..|].
  intros k. rewrite <- !(elem_of_list_to_set (C := gset string)).
  by rewrite Hdom1, Hdom2.
Qed.

(** X3.  When every setter bound to a name of the program writes that
    uniform and nothing else, and these names are at different
    locations, the order in which the [range] of [drawImage] visits the
    map does not matter: any two orders give the same GL state, and so
    the same picture. *)
Theorem drawImage_order_independent sh vars pboIndex (m : umap) ks1 ks2 g :
  plain_writes sh vars m → distinct_locations sh m →
  range_order m ks1 → range_order m ks2 →
  drawImage fragment sh vars pboIndex m ks1 g
  = drawImage fragment sh vars pboIndex m ks2 g.
Proof.
  intros Hplain Hdist H1 H2. unfold drawImage.
  by rewrite (set_uniforms_perm sh vars m ks1 ks2 Hplain Hdist
                (range_order_perm m ks1 ks2 H1 H2)).
Qed.

(** X4.  [Image] is repeatable: with setters that write their own
    uniform, at different locations, a second call with the same map
    returns the same image as the first, also when the [range] takes
    another order, although the first call has left its values in the
    uniform store and, for a map without [resolution], a new binding in
    the map. *)
Theorem Image_twice_same_image sh uniformValues ks1 ks2 wd :
  ready sh (gl wd) →
  plain_writes sh (go_vars wd) (caller_map uniformValues wd) →
  distinct_locations sh (with_resolution sh (caller_map uniformValues wd)) →
  range_order (with_resolution sh (caller_map uniformValues wd)) ks1 →
  range_order (with_resolution sh (caller_map uniformValues wd)) ks2 →
  ∃ img wd1 wd2,
    Image fragment sh uniformValues ks1 wd = Some (img, wd1)
    ∧ Image fragment sh uniformValues ks2 wd1 = Some (img, wd2).
Proof.
  intros Hready Hplain Hdist Hks1 Hks2.
  destruct (Image_spec sh uniformValues ks1 wd Hready)
    as (u & p0 & Hu & Hp0 & HImage); [by eapply plain_writes_safe|].
  rewrite HImage. eexists _, _, _. split; [done|].
  set (wd1 := set_gl _ _).
  assert (go_vars wd1 = go_vars wd) as Hvars.
  { unfold wd1. simpl. rewrite default_resolution_vars.
    by destruct (or_new_map_spec uniformValues wd) as (_ & -> & _). }
  assert (with_resolution sh (caller_map uniformValues wd1)
          = with_resolution sh (caller_map uniformValues wd)) as Hmap.
  { destruct uniformValues as [r|]; [|done]. unfold wd1. simpl.
    by rewrite default_resolution_map, with_resolution_idemp. }
  assert (ready sh (gl wd1)) as Hready1.
  { unfold wd1. simpl. apply ready_buffers_update; [done|].
    destruct Hready. apply length_rasterize; lia. }
  assert (setters_safe sh (caller_map uniformValues wd1)) as Hsafe1.
  { destruct uniformValues as [r|]; [|done]. unfold wd1. simpl.
    rewrite default_resolution_map. apply setters_safe_with_resolution.
    by eapply plain_writes_safe. }
  destruct (Image_spec sh uniformValues ks2 wd1 Hready1 Hsafe1)
    as (u' & p0' & Hu' & Hp0' & HImage').
  rewrite HImage'. rewrite Hmap, Hvars in Hu'.
  rewrite Hp0 in Hp0'. injection Hp0' as <-.
  assert (u' = u) as ->; [|done].
  pose proof (plain_writes_with_resolution _ _ _ Hplain) as Hplain'.
  rewrite (set_uniforms_perm sh _ _ ks2 ks1 Hplain' Hdist
             (range_order_perm _ ks2 ks1 Hks2 Hks1)) in Hu'.
  destruct (set_uniforms_plain sh (go_vars wd)
              (with_resolution sh (caller_map uniformValues wd)) ks1 Hplain')
    as [ws Hws].
  rewrite Hws in Hu, Hu'. injection Hu as <-.
  replace (GL.uniform_values (gl wd1)) with (write_all ws (GL.uniform_values (gl wd)))
    in Hu' by done.
  rewrite write_all_idemp in Hu'. by injection Hu' as <-.
Qed.

(** ** The state that a run of [Animate] leaves *)

Lemma sends_iteration sh frame u : sends (iteration_calls sh frame u) = [].
Proof. unfold iteration_calls. by case_decide. Qed.

(** After [n] draws: the map holds the two bindings (after the first
    pass), no other map object has changed, the accumulator holds
    [n * interval] and no other variable has changed, no buffer other
    than the three of the ring has changed, and the draws are three
    ahead of the sends at the loop head, four at the [select]. *)
Lemma Animate_final sh interval envs uniformValues ks fuel wd :
  ready sh (gl wd) → setters_safe sh (caller_map uniformValues wd) →
  ∃ r tr,
    Animate fragment sh interval envs uniformValues ks fuel wd = Some r
    ∧ GL.trace (gl (run_world r)) = GL.trace (gl wd) ++ tr
    ∧ ready sh (gl (run_world r))
    ∧ setters_safe sh (go_maps (run_world r) !!! (or_new_map uniformValues wd).1)
    ∧ go_maps (run_world r) !!! (or_new_map uniformValues wd).1
      = match length (draws tr) with
        | O => caller_map uniformValues wd
        | S _ => with_time sh (fresh (dom (go_vars wd))) (caller_map uniformValues wd)
        end
    ∧ (∀ x, x ≠ (or_new_map uniformValues wd).1 →
         go_maps (run_world r) !! x = go_maps wd !! x)
    ∧ go_vars (run_world r)
      = <[fresh (dom (go_vars wd))
          := GoInt.to_int64 (Z.of_nat (length (draws tr)) * interval)]> (go_vars wd)
    ∧ (∀ b, b ∉ pbo_names sh →
         GL.buffers (gl (run_world r)) !! b = GL.buffers (gl wd) !! b)
    ∧ length (sends tr) = length (run_sent r)
    ∧ match run_status r with
      | Running =>
          length (draws tr) = fuel
          ∧ (Z.of_nat fuel ≤ 2 ^ 64 → length (sends tr) = (fuel - 3)%nat)
      | _ =>
          (0 < length (draws tr) ≤ fuel + 1)%nat
          ∧ (Z.of_nat (length (draws tr)) ≤ 2 ^ 64 →
             length (draws tr) = (length (sends tr) + 4)%nat)
      end.
Proof.
  intros Hr Hsafe.
  set (uv := (or_new_map uniformValues wd).1).
  set (t := fresh (dom (go_vars wd))).
  set (tr0 := GL.trace (gl wd)).
  set (m := caller_map uniformValues wd).
  set (after := λ (n : nat) (sent : list image.RGBA) (wd1 : World) (tr : list event),
         GL.trace (gl wd1) = tr0 ++ tr ∧ length (draws tr) = n
         ∧ go_maps wd1 !!! uv = match n with O => m | S _ => with_time sh t m end
         ∧ (∀ x, x ≠ uv → go_maps wd1 !! x = go_maps wd !! x)
         ∧ go_vars wd1 = <[t := GoInt.to_int64 (Z.of_nat n * interval)]> (go_vars wd)
         ∧ (∀ b, b ∉ pbo_names sh →
              GL.buffers (gl wd1) !! b = GL.buffers (gl wd) !! b)
         ∧ length (sends tr) = length sent).
  destruct (Animate_entry uniformValues wd) as (Hg & Hm & Ht & _ & Hothers).
  destruct (Animate_inv sh interval uniformValues ks wd uv t
    (λ i frame sent wd1,
       loop_base sh uv frame wd1 ∧ frame = GoInt.to_uint64 (Z.of_nat i)
       ∧ ∃ tr, after i sent wd1 tr
               ∧ (Z.of_nat i ≤ 2 ^ 64 → length (sends tr) = (i - 3)%nat))
    (λ s j _ sent wd1,
       ready sh (gl wd1) ∧ setters_safe sh (go_maps wd1 !!! uv)
       ∧ ∃ tr, after (match s with Running => j | _ => S j end) sent wd1 tr
               ∧ match s with
                 | Running => Z.of_nat j ≤ 2 ^ 64 → length (sends tr) = (j - 3)%nat
                 | _ => Z.of_nat j < 2 ^ 64 → (length (sends tr) + 3)%nat = j
                 end))
    with (fuel := fuel) (envs := envs)
    as (r & j & Hrun & Hj & Hjrun & Hready & Hsafe' & tr & Hafter & Hcount); try done.
  - intros i frame sent wd1 (Hb & _). destruct Hb as (? & ? & ?). done.
  - intros i frame sent wd1 ((? & ? & ?) & _ & tr & ? & ?). split_and!; try done.
    by exists tr.
  - intros i frame sent wd1 wd' read u b
      (Hb & Hframe & tr & (Htr & Hlen & Hmap & Hoth & Hvars & Hbufs & Hsent) & Hcount) Hbs.
    destruct (loop_base_step _ _ _ _ _ _ _ _ _ _ _ Hb Hbs) as [Hb' Hb''].
    pose proof (body_step_calls _ _ _ _ _ _ _ _ _ _ _ Hbs) as Htr'.
    destruct (gl_calls_iteration sh frame u) as [_ Hdr].
    pose proof (sends_iteration sh frame u) as Hsn.
    set (tr1 := tr ++ iteration_calls sh frame u).
    assert (after (S i) sent wd' tr1) as Hafter.
    { unfold after, tr1. split_and!.
      - rewrite Htr', Htr. by rewrite <- app_assoc.
      - rewrite draws_app, Hdr, length_app. simpl. lia.
      - rewrite (step_map _ _ _ _ _ _ _ _ _ _ _ _ Hbs), Hmap.
        destruct i; [done|]. apply with_time_idemp.
      - intros x Hx. rewrite (step_maps _ _ _ _ _ _ _ _ _ _ _ _ Hbs) by done. auto.
      - rewrite (step_vars _ _ _ _ _ _ _ _ _ _ _ _ Hbs), Hvars.
        rewrite lookup_total_insert_eq, insert_insert_eq, to_int64_add.
        do 2 f_equal. lia.
      - intros b0 Hb0. rewrite (step_buffers _ _ _ _ _ _ _ _ _ _ _ _ Hbs).
        rewrite lookup_insert_ne; [by apply Hbufs|].
        intros <-. apply Hb0. eapply pbo_at_names.
        apply (step_slot _ _ _ _ _ _ _ _ _ _ _ _ Hbs).
      - by rewrite sends_app, Hsn, app_nil_r. }
    assert (sends tr1 = sends tr) as Hsends.
    { unfold tr1. by rewrite sends_app, Hsn, app_nil_r. }
    assert (Z.of_nat i < 2 ^ 64 → frame = Z.of_nat i) as Hsmall.
    { intros Hi. rewrite Hframe. apply to_uint64_small. lia. }
    assert (GoInt.to_uint64 (frame + 1) = GoInt.to_uint64 (Z.of_nat (S i))) as Hnext.
    { rewrite Hframe, to_uint64_succ. f_equal. lia. }
    destruct (body_step_cases _ _ _ _ _ _ _ _ _ _ _ Hbs)
      as [(Hlt & -> & _)|(Hge & b' & data & _ & _ & _ & -> & _)].
    + split_and!; try done. exists tr1. split; [done|].
      intros Hi. rewrite Hsends, Hcount by lia.
      unfold len_pbos in Hlt. specialize (Hsmall ltac:(lia)). lia.
    + destruct Hb' as (Hr' & Hsafe' & _).
      assert (Z.of_nat i < 2 ^ 64 → (length (sends tr1) + 3)%nat = i) as Hexit.
      { intros Hi. rewrite Hsends, Hcount by lia.
        unfold len_pbos in Hge. specialize (Hsmall Hi). lia. }
      split_and!; try done; try (by exists tr1); auto.
      exists (tr1 ++ [Send data]).
      destruct Hafter as (Htr1 & Hlen1 & Hmap1 & Hoth1 & Hvars1 & Hbufs1 & Hsent1).
      split.
      * unfold after. simpl. split_and!; try done.
        -- rewrite Htr1. by rewrite <- app_assoc.
        -- rewrite draws_app. simpl. by rewrite app_nil_r.
        -- rewrite sends_app, !length_app. simpl. lia.
      * intros Hi. rewrite sends_app, length_app. simpl.
        specialize (Hexit ltac:(lia)). lia.
  - split; [by apply loop_base_entry|]. split; [done|].
    exists []. split; [|done]. unfold after. rewrite Hg. unfold tr0.
    rewrite app_nil_r. split_and!; try done.
    simpl. destruct (or_new_map_spec uniformValues wd) as (_ & -> & _). done.
  - exists r, tr.
    destruct Hafter as (Htr & Hlen & Hmap & Hoth & Hvars & Hbufs & Hsent).
    rewrite Hlen. split_and!; try done.
    destruct (run_status r) eqn:Hs.
    + split; [lia|]. intros Hi. specialize (Hcount ltac:(lia)). lia.
    + split; [lia|]. intros Hi. specialize (Hcount ltac:(lia)). lia.
    + rewrite (Hjrun eq_refl) in *. split; [done|]. done.
Qed.

(** ** Drawing into a slot and reading a slot *)

(** X5.  On a ready shader, a [drawImage] into slot [i] that returns
    has put the picture it drew into the buffer of slot [i] and has left
    the other two buffers alone: a [downloadImage] of slot [i] right
    after it returns that picture, a [downloadImage] of another slot
    returns what that slot held before the draw; and reading a slot
    changes no buffer. *)
Theorem drawn_slot_reads_back sh vars i (m : umap) ks g g1 j bj old :
  ready sh g →
  drawImage fragment sh vars i m ks g = Some g1 →
  pbo_at sh j = Some bj → GL.buffers g !! bj = Some old →
  ∃ g2,
    downloadImage sh j g1
    = Some (image.RGBA_
              (if decide (j = i)
               then rasterize fragment (w sh) (h sh) (GL.uniform_values g1)
               else old)
              (4 * w sh) (image.Rectangle_ 0 0 (w sh) (h sh)),
            g2)
    ∧ GL.buffers g2 = GL.buffers g1.
Proof.
  intros Hr Hdraw Hj Hold.
  assert (∃ u b, set_uniforms sh vars (range_entries m ks) (GL.uniform_values g)
                 = Some u ∧ pbo_at sh i = Some b) as (u & b & Hu & Hi).
  { unfold drawImage in Hdraw.
    destruct (set_uniforms sh vars _ _) as [u|]; simpl in Hdraw; [|done].
    destruct (pbo_at sh i) as [b|]; [|done]. by exists u, b. }
  rewrite (drawImage_spec sh vars i m ks g u b Hr Hu Hi) in Hdraw.
  injection Hdraw as <-.
  assert (ready sh (GL.State u (w sh) (h sh) (rasterize fragment (w sh) (h sh) u) b
                      (<[b := rasterize fragment (w sh) (h sh) u]> (GL.buffers g))
                      (GL.trace g ++ [DrawArrays u; ReadPixels b]))) as Hr1.
  { apply ready_buffers_update; [done|]. destruct Hr. apply length_rasterize; lia. }
  assert ((<[b := rasterize fragment (w sh) (h sh) u]> (GL.buffers g)) !! bj
          = Some (if decide (j = i) then rasterize fragment (w sh) (h sh) u else old))
    as Hlook.
  { case_decide as Hji.
    - subst j. assert (bj = b) as -> by congruence. by rewrite lookup_insert_eq.
    - rewrite lookup_insert_ne; [done|]. intros <-. apply Hji.
      destruct Hr. by eapply pbo_at_inj. }
  rewrite (downloadImage_spec sh j _ bj _ Hr1 Hj Hlook). by eexists.
Qed.

(** ** What a run of [Animate] has done when it stops *)

(** X6.  [Animate] draws only as fast as its images are taken: however
    the consumer and the cancellation behave, the number of frames drawn
    is never more than four above the number of images delivered on
    [stream]; it is exactly four above when the loop waits at its
    [select] or has returned, and three above at the head of the loop
    (from the third iteration on).  The frame counter is a [uint64]: the
    count holds for runs shorter than [2 ^ 64] iterations. *)
Theorem Animate_draws_four_ahead sh interval envs uniformValues ks fuel wd :
  ready sh (gl wd) → setters_safe sh (caller_map uniformValues wd) →
  Z.of_nat fuel < 2 ^ 64 →
  ∃ r,
    Animate fragment sh interval envs uniformValues ks fuel wd = Some r
    ∧ let drawn := length (draws (new_events (GL.trace (gl wd)) (run_world r))) in
      let taken := length (run_sent r) in
      (drawn ≤ taken + 4)%nat
      ∧ (run_status r ≠ Running → drawn = (taken + 4)%nat)
      ∧ (run_status r = Running → drawn = fuel ∧ taken = (fuel - 3)%nat).
Proof.
  intros Hr Hsafe Hfuel.
  destruct (Animate_final sh interval envs uniformValues ks fuel wd Hr Hsafe)
    as (r & tr & Hrun & Htr & _ & _ & _ & _ & _ & _ & Hsent & Hcount).
  exists r. split; [done|]. rewrite (new_events_app _ _ _ Htr). simpl.
  rewrite <- Hsent. destruct (run_status r).
  - destruct Hcount as [Hle Hcount]. specialize (Hcount ltac:(lia)).
    split_and!; [lia|done|done].
  - destruct Hcount as [Hle Hcount]. specialize (Hcount ltac:(lia)).
    split_and!; [lia|done|done].
  - destruct Hcount as [Hle Hcount]. specialize (Hcount ltac:(lia)).
    split_and!; [lia|done|]. intros _. split; [done|lia].
Qed.

(** X7.  What [Animate] leaves alone: every map object other than the
    one it was given (with nil, every map object that existed), every
    variable that existed (so a [time] closure that an earlier run left
    in some map keeps its value), every GL buffer other than the three
    of the ring, and the size of the render target. *)
Theorem Animate_footprint sh interval envs uniformValues ks fuel wd :
  ready sh (gl wd) → setters_safe sh (caller_map uniformValues wd) →
  ∃ r,
    Animate fragment sh interval envs uniformValues ks fuel wd = Some r
    ∧ (∀ x, is_Some (go_maps wd !! x) → uniformValues ≠ Some x →
         go_maps (run_world r) !! x = go_maps wd !! x)
    ∧ (∀ y, is_Some (go_vars wd !! y) →
         go_vars (run_world r) !! y = go_vars wd !! y)
    ∧ (∀ b, b ∉ pbo_names sh →
         GL.buffers (gl (run_world r)) !! b = GL.buffers (gl wd) !! b)
    ∧ GL.rb_width (gl (run_world r)) = GL.rb_width (gl wd)
    ∧ GL.rb_height (gl (run_world r)) = GL.rb_height (gl wd).
Proof.
  intros Hr Hsafe.
  destruct (Animate_final sh interval envs uniformValues ks fuel wd Hr Hsafe)
    as (r & tr & Hrun & _ & Hr' & _ & _ & Hoth & Hvars & Hbufs & _).
  destruct (Animate_entry uniformValues wd) as (_ & _ & _ & Hnil & _).
  exists r. split_and!; try done.
  - intros x Hx Hne. apply Hoth. destruct uniformValues as [r0|]; simpl.
    + congruence.
    + intros ->. apply Hnil; [done|]. by apply elem_of_dom.
  - intros y Hy. rewrite Hvars. apply lookup_insert_ne. intros <-.
    apply elem_of_dom in Hy. by apply is_fresh in Hy.
  - destruct Hr, Hr'. congruence.
  - destruct Hr, Hr'. congruence.
Qed.

(** X8.  What [Image] leaves alone: every map object other than the one
    it was given, every variable, every GL buffer other than that of
    slot 0 (the other two slots of the ring keep their contents), and
    the size of the render target. *)
Theorem Image_footprint sh uniformValues ks wd :
  ready sh (gl wd) → setters_safe sh (caller_map uniformValues wd) →
  ∃ img wd' p0,
    Image fragment sh uniformValues ks wd = Some (img, wd')
    ∧ pbo_at sh 0 = Some p0
    ∧ (∀ x, is_Some (go_maps wd !! x) → uniformValues ≠ Some x →
         go_maps wd' !! x = go_maps wd !! x)
    ∧ go_vars wd' = go_vars wd
    ∧ (∀ b, b ≠ p0 → GL.buffers (gl wd') !! b = GL.buffers (gl wd) !! b)
    ∧ GL.rb_width (gl wd') = GL.rb_width (gl wd)
    ∧ GL.rb_height (gl wd') = GL.rb_height (gl wd).
Proof.
  intros Hr Hsafe.
  destruct (Image_spec sh uniformValues ks wd Hr Hsafe) as (u & p0 & _ & Hp0 & ->).
  eexists _, _, p0. split; [done|]. split; [done|]. simpl.
  destruct (or_new_map_spec uniformValues wd) as (_ & Hvars & _).
  split_and!.
  - intros x Hx Hne.
    assert (x ≠ (or_new_map uniformValues wd).1) as Hx'.
    { destruct uniformValues as [r0|]; simpl; [congruence|].
      intros ->. apply elem_of_dom in Hx. by apply is_fresh in Hx. }
    rewrite default_resolution_other by done.
    destruct uniformValues as [r0|]; simpl; [done|].
    simpl in Hx'. by rewrite lookup_insert_ne.
  - by rewrite default_resolution_vars.
  - intros b Hb. by rewrite lookup_insert_ne.
  - by destruct Hr.
  - by destruct Hr.
Qed.

(** X9.  The map that [Animate] was given keeps the closure over the
    accumulator under [time] when [Animate] has returned: an [Image]
    with the same map afterwards draws with [time] at the value the
    accumulator reached, the number of frames drawn times [interval],
    not with the caller's own [time], if it had one. *)
Theorem Image_after_Animate_draws_last_time sh interval envs r0 ks ks' fuel wd un :
  ready sh (gl wd) → setters_safe sh (caller_map (Some r0) wd) →
  uniforms sh !! "time" = Some un →
  time_exclusive sh (Location un) (with_resolution sh (caller_map (Some r0) wd)) →
  "time" ∈ ks' → (0 < fuel)%nat →
  ∃ r img wd' u,
    Animate fragment sh interval envs (Some r0) ks fuel wd = Some r
    ∧ Image fragment sh (Some r0) ks' (run_world r) = Some (img, wd')
    ∧ image.Pix img = rasterize fragment (w sh) (h sh) u
    ∧ u !! Location un
      = Some (UFloats [seconds (GoInt.to_int64
           (Z.of_nat (length (draws (new_events (GL.trace (gl wd)) (run_world r))))
            * interval))]).
Proof.
  intros Hr Hsafe Hun Hex Hks' Hfuel.
  destruct (Animate_final sh interval envs (Some r0) ks fuel wd Hr Hsafe)
    as (r & tr & Hrun & Htr & Hr' & Hsafe' & Hmap & _ & Hvars & _ & _ & Hcount).
  simpl in Hsafe', Hmap.
  assert (0 < length (draws tr))%nat as Hpos.
  { destruct (run_status r); lia. }
  destruct (length (draws tr)) as [|n] eqn:Hn; [lia|].
  destruct (Image_spec sh (Some r0) ks' (run_world r) Hr' Hsafe')
    as (u & p0 & Hu & _ & HImage).
  exists r. eexists _, _, u. split; [done|]. split; [exact HImage|].
  split; [done|]. rewrite (new_events_app _ _ _ Htr), Hn.
  simpl in Hu. rewrite Hmap in Hu.
  assert (with_resolution sh (with_time sh (fresh (dom (go_vars wd))) (go_maps wd !!! r0))
          = with_time sh (fresh (dom (go_vars wd))) (go_maps wd !!! r0)) as Hres.
  { eapply with_resolution_id. apply with_time_lookup. }
  rewrite Hres in Hu.
  apply (set_uniforms_time sh _ (fresh (dom (go_vars wd))) _ _ _ _ un Hun) in Hu;
    [|by apply with_time_lookup|by apply time_exclusive_with_time|done].
  by rewrite Hvars, lookup_total_insert_eq in Hu.
Qed.

(** ** Construction and release *)

(** X10.  When no collaborator reports an error, [NewShader] returns a
    shader of the size asked for, with the uniform table of the program
    and three distinct buffer names, in a new window whose context it
    has made current and in which it has generated seven names (the
    framebuffer, the renderbuffer, the three pack buffers, the canvas
    and the program); and a [Close] right after it releases all of them:
    the windows alive are those from before the construction.  No
    context is current then, not even the one that was current before. *)
Theorem NewShader_then_Close_releases ans width height p :
  once_done p = true ∨ glfw_Init ans = None →
  glfw_CreateWindow ans = None → gl_Init ans = None → linkProgram ans = None →
  ∃ sh hd p1 c,
    NewShader ans width height p = (inr (sh, hd), p1)
    ∧ (w sh, h sh, uniforms sh) = (width, height, ListUniforms ans)
    ∧ NoDup (pbo_names sh)
    ∧ windows p !! win hd = None
    ∧ windows p1 = <[win hd := c]> (windows p) ∧ objects c = 7%nat
    ∧ current p1 = Some (win hd)
    ∧ Close sh hd p1 = Some (None, Process_ true (windows p) None).
Proof.
  intros Hinit Hwin Hgl Hlink.
  assert (init_once ans p = (None, Process_ true (windows p) (current p))) as Honce.
  { unfold init_once. destruct (once_done p) eqn:Hdone.
    - destruct p. simpl in *. by subst.
    - destruct Hinit as [? | ->]; done. }
  unfold NewShader. rewrite Honce, Hwin, Hgl, Hlink. cbn [windows once_done].
  assert (windows p !! fresh (dom (windows p)) = None) as Hfresh.
  { apply not_elem_of_dom, is_fresh. }
  eexists _, _, _, _. split; [reflexivity|]. cbn [win].
  split_and!; try done.
  - apply (bool_decide_unpack _). by vm_compute.
  - unfold Close. cbn [current windows pbos]. simpl.
    rewrite lookup_insert_eq. simpl.
    rewrite decide_True by (rewrite lookup_insert_eq; by eexists).
    rewrite decide_True by done.
    by rewrite !delete_insert_eq, delete_id.
Qed.

(** X11.  When [gl.Init] or [linkProgram] reports an error, [NewShader]
    returns it and leaves the window it has created alive, with its
    context current: the caller gets no shader to close it with.  After
    a failed [linkProgram] that context holds the six objects of lines
    75-97.  When [glfw.CreateWindow] reports the error, no window is
    added. *)
Theorem NewShader_error_keeps_window ans width height p e :
  once_done p = true ∨ glfw_Init ans = None →
  (glfw_CreateWindow ans = Some e →
     ∃ p1, NewShader ans width height p = (inl e, p1)
           ∧ windows p1 = windows p ∧ current p1 = current p)
  ∧ (glfw_CreateWindow ans = None →
     gl_Init ans = Some e ∨ (gl_Init ans = None ∧ linkProgram ans = Some e) →
     ∃ p1 win c,
       NewShader ans width height p = (inl e, p1)
       ∧ windows p !! win = None
       ∧ windows p1 = <[win := c]> (windows p)
       ∧ current p1 = Some win
       ∧ objects c = match gl_Init ans with Some _ => 0 | None => 6 end%nat).
Proof.
  intros Hinit.
  assert (init_once ans p = (None, Process_ true (windows p) (current p))) as Honce.
  { unfold init_once. destruct (once_done p) eqn:Hdone.
    - destruct p. simpl in *. by subst.
    - destruct Hinit as [? | ->]; done. }
  assert (windows p !! fresh (dom (windows p)) = None) as Hfresh.
  { apply not_elem_of_dom, is_fresh. }
  split.
  - intros Hwin. unfold NewShader. rewrite Honce, Hwin. by eexists.
  - intros Hwin Herr. unfold NewShader. rewrite Honce, Hwin. cbn [windows once_done].
    destruct Herr as [Hgl | [Hgl Hlink]]; rewrite Hgl; [|rewrite Hlink];
      eexists _, _, _; (split; [reflexivity|]); split_and!; try done.
Qed.


(** ** Uniforms that the map does not bind *)

Lemma set_uniforms_untouched sh vars (m : umap) ks loc u u' :
  untouched sh loc m →
  set_uniforms sh vars (range_entries m ks) u = Some u' →
  u' !! loc = u !! loc.
Proof.
  intros Hun. revert u. induction ks as [|k ks IH]; intros u; [by intros [= <-]|].
  rewrite range_entries_cons. destruct (m !! k) as [s|] eqn:Hk; [|by apply IH].
  simpl. destruct (uniforms sh !! k) as [un|] eqn:Hk'; [|by apply IH].
  destruct (call_setter vars s (Location un) u) as [u1|] eqn:Hcall; [|done].
  simpl. intros Hrest. rewrite (IH _ Hrest). by eapply Hun.
Qed.

(** X13.  [Image] sets the uniforms that its map binds and no other: a
    uniform that no binding of the map touches goes into the draw with
    the value that the last draw on this shader left in the program,
    whichever call made it.  The image is a function of the bindings
    and of that state. *)
Theorem Image_keeps_unbound_uniform sh uniformValues ks wd loc :
  ready sh (gl wd) → setters_safe sh (caller_map uniformValues wd) →
  untouched sh loc (with_resolution sh (caller_map uniformValues wd)) →
  ∃ img wd' u,
    Image fragment sh uniformValues ks wd = Some (img, wd')
    ∧ image.Pix img = rasterize fragment (w sh) (h sh) u
    ∧ GL.uniform_values (gl wd') = u
    ∧ u !! loc = GL.uniform_values (gl wd) !! loc.
Proof.
  intros Hr Hsafe Hun.
  destruct (Image_spec sh uniformValues ks wd Hr Hsafe) as (u & p0 & Hu & _ & ->).
  eexists _, _, u. split_and!; try done.
  by eapply set_uniforms_untouched.
Qed.

(** ** How a run ends *)

Lemma Animate_loop_until_cancel sh interval uv t ks ec rest fuel :
  go_select ec = Some CaseCancel →
  ∀ es i sent wd,
    Forall (λ e, go_select e = Some CaseSend) es →
    loop_base sh uv (Z.of_nat i) wd →
    Z.of_nat (Nat.max i 3 + length es) < 2 ^ 64 →
    (length es + (3 - i) < fuel)%nat →
    ∃ r,
      Animate_loop fragment sh interval uv t ks fuel (es ++ ec :: rest) i
        (Z.of_nat i) sent wd = Some r
      ∧ run_status r = Returned
      ∧ length (run_sent r) = (length sent + length es)%nat
      ∧ run_frame r = Z.of_nat (Nat.max i 3 + length es).
Proof.
  intros Hec. induction fuel as [|fuel IH]; intros es i sent wd Hes Hb Hi Hfuel; [lia|].
  destruct (Animate_body_step sh interval uv t (ks i) (Z.of_nat i) wd)
    as (wd' & read & u & b & Hbody & Hbs); [apply Hb..|].
  destruct (loop_base_step _ _ _ _ _ _ _ _ _ _ _ Hb Hbs) as [Hb' Hb''].
  destruct (body_step_cases _ _ _ _ _ _ _ _ _ _ _ Hbs)
    as [(Hlt & -> & _)|(Hge & b' & data & _ & _ & _ & -> & _)];
    unfold len_pbos in *.
  - rewrite (Animate_loop_prime _ _ _ _ _ _ _ _ _ _ _ _ Hbody).
    rewrite to_uint64_small in Hb' by lia.
    replace (Z.of_nat i + 1) with (Z.of_nat (S i)) in Hb' by lia.
    rewrite to_uint64_small by lia.
    replace (Z.of_nat i + 1) with (Z.of_nat (S i)) by lia.
    destruct (IH es (S i) sent wd' Hes Hb') as (r & -> & Hs & Hsent & Hframe);
      [lia|lia|].
    exists r. split_and!; try done. rewrite Hframe. f_equal. lia.
  - rewrite (Animate_loop_select _ _ _ _ _ _ _ _ _ _ _ _ _ Hbody).
    destruct es as [|e es]; simpl.
    + rewrite Hec. eexists. split; [done|]. simpl. split_and!; [done|lia|].
      f_equal. lia.
    + apply Forall_cons in Hes as [He Hes]. rewrite He.
      simpl in Hi, Hfuel.
      rewrite to_uint64_small by lia.
      replace (Z.of_nat i + 1) with (Z.of_nat (S i)) by lia.
      specialize (Hb'' (Send data)).
      rewrite to_uint64_small in Hb'' by lia.
      replace (Z.of_nat i + 1) with (Z.of_nat (S i)) in Hb'' by lia.
      destruct (IH es (S i)
                  (sent ++ [image.RGBA_ data (4 * w sh)
                              (image.Rectangle_ 0 0 (w sh) (h sh))])
                  _ Hes Hb'')
        as (r & -> & Hs & Hsent & Hframe); [lia|lia|].
      exists r. split_and!; try done.
      * rewrite Hsent, length_app. simpl. lia.
      * rewrite Hframe. f_equal. lia.
Qed.

(** X14.  A consumer that takes [n] images and then cancels gets
    exactly those [n] images: when the first [n] times the loop reaches
    its [select] the send is taken and the next time the [cancel] case,
    [Animate] returns after [n + 4] draws with [n] images delivered,
    whatever the channels would offer later. *)
Theorem Animate_returns_when_cancelled
    sh interval es ec rest uniformValues ks fuel wd :
  ready sh (gl wd) → setters_safe sh (caller_map uniformValues wd) →
  Forall (λ e, go_select e = Some CaseSend) es →
  go_select ec = Some CaseCancel →
  (length es + 4 ≤ fuel)%nat → Z.of_nat fuel < 2 ^ 64 →
  ∃ r,
    Animate fragment sh interval (es ++ ec :: rest) uniformValues ks fuel wd = Some r
    ∧ run_status r = Returned
    ∧ length (run_sent r) = length es
    ∧ run_frame r = Z.of_nat (length es) + 3
    ∧ length (draws (new_events (GL.trace (gl wd)) (run_world r)))
      = (length es + 4)%nat.
Proof.
  intros Hr Hsafe Hes Hec Hfuel Hsmall.
  destruct (Animate_final sh interval (es ++ ec :: rest) uniformValues ks fuel wd
              Hr Hsafe)
    as (r & tr & Hrun & Htr & _ & _ & _ & _ & _ & _ & Hsent & Hcount).
  exists r. split; [done|]. rewrite Animate_unfold in Hrun.
  destruct (Animate_loop_until_cancel sh interval (or_new_map uniformValues wd).1
              (fresh (dom (go_vars wd))) ks ec rest fuel Hec es 0 []
              (new_var 0 (or_new_map uniformValues wd).2).2 Hes)
    as (r' & Hrun' & Hs & Hlen & Hframe).
  { by apply loop_base_entry. }
  { lia. }
  { lia. }
  change (Z.of_nat 0) with 0 in Hrun'. rewrite Hrun in Hrun'.
  injection Hrun' as <-. rewrite (new_events_app _ _ _ Htr).
  rewrite Hs in Hcount. destruct Hcount as [Hle Hcount].
  simpl in Hlen. split_and!; [done|done|rewrite Hframe; lia|].
  rewrite Hcount by lia. lia.
Qed.

Lemma Animate_loop_outcome sh interval uv t ks fuel :
  ∀ envs i frame sent wd r,
    Animate_loop fragment sh interval uv t ks fuel envs i frame sent wd = Some r →
    ∃ es rest,
      envs = es ++ rest
      ∧ Forall (λ e, go_select e = Some CaseSend) es
      ∧ length (run_sent r) = (length sent + length es)%nat
      ∧ match run_status r with
        | Returned => ∃ ec, head rest = Some ec ∧ go_select ec = Some CaseCancel
        | Blocked => ∀ e, head rest = Some e → go_select e = None
        | Running => True
        end.
Proof.
  induction fuel as [|fuel IH]; intros envs i frame sent wd r.
  { intros [= <-]. exists [], envs. split_and!; try done; simpl; lia. }
  rewrite Animate_loop_S.
  destruct (Animate_body fragment sh interval uv t (ks i) frame wd)
    as [[wd' [img|]]|]; simpl; [| |done].
  - destruct envs as [|e envs].
    { intros [= <-]. exists [], []. split_and!; try done; simpl; lia. }
    destruct (go_select e) as [[|]|] eqn:He.
    + intros [= <-]. exists [], (e :: envs).
      split_and!; try done; simpl; try lia. by exists e.
    + intros Hrun. destruct (IH _ _ _ _ _ _ Hrun) as (es & rest & -> & Hes & Hlen & Hst).
      exists (e :: es), rest. split_and!; try done.
      * by apply Forall_cons.
      * rewrite Hlen, length_app. simpl. lia.
    + intros [= <-]. exists [], (e :: envs).
      split_and!; try done; simpl; try lia. by intros e' [= <-].
  - apply IH.
Qed.

(** X15.  How a run ends depends on the channels alone.  The images
    delivered are as many as the [select]s that took the send, and these
    come first; [Animate] has returned only if the [select] after them
    took the [cancel] case, and it waits only if the [select] after them
    finds neither channel ready.  So [Animate] never returns without a
    cancellation. *)
Theorem Animate_outcome sh interval envs uniformValues ks fuel wd r :
  Animate fragment sh interval envs uniformValues ks fuel wd = Some r →
  ∃ es rest,
    envs = es ++ rest
    ∧ Forall (λ e, go_select e = Some CaseSend) es
    ∧ length (run_sent r) = length es
    ∧ match run_status r with
      | Returned => ∃ ec, head rest = Some ec ∧ go_select ec = Some CaseCancel
      | Blocked => ∀ e, head rest = Some e → go_select e = None
      | Running => True
      end.
Proof.
  rewrite Animate_unfold. intros Hrun.
  destruct (Animate_loop_outcome _ _ _ _ _ _ _ _ _ _ _ _ Hrun)
    as (es & rest & -> & Hes & Hlen & Hst).
  by exists es, rest.
Qed.

(** ** Calls can be chained *)


End Proofs.

(** ** The small instance satisfies what the theorems assume *)

Lemma demo_ready : ready demo_shader demo_gl.
Proof.
  constructor; simpl; try lia.
  - apply (bool_decide_unpack _). by vm_compute.
  - intros b Hb. unfold pbo_names in Hb. simpl in Hb.
    apply elem_of_cons in Hb as [->|Hb]; [by eexists|].
    apply elem_of_cons in Hb as [->|Hb]; [by eexists|].
    apply list_elem_of_singleton in Hb as ->. by eexists.
Qed.

Lemma demo_safe : setters_safe demo_shader (caller_map (Some 5%nat) demo_world).
Proof.
  change (caller_map (Some 5%nat) demo_world) with (go_maps demo_world !!! 5%nat).
  unfold demo_world. simpl. rewrite lookup_total_singleton_eq.
  unfold demo_map. apply map_Forall_insert_2.
  - unfold setter_safe.
    replace (uniforms demo_shader !! "tint") with (Some (Uniform_ 0 2))
      by (by vm_compute).
    intros u. by eexists.
  - apply map_Forall_singleton. unfold setter_safe.
    by replace (uniforms demo_shader !! "ghost") with (@None Uniform)
      by (by vm_compute).
Qed.

Lemma demo_time_exclusive :
  time_exclusive demo_shader 0
    (with_resolution demo_shader (caller_map (Some 5%nat) demo_world)).
Proof.
  change (caller_map (Some 5%nat) demo_world) with (go_maps demo_world !!! 5%nat).
  unfold demo_world. cbn [go_maps]. rewrite lookup_total_singleton_eq.
  unfold with_resolution.
  replace (demo_map !! "resolution") with (@None setter) by (by vm_compute).
  unfold demo_map.
  intros name s un vars u u' Hne Hm Hun Hcall.
  apply lookup_insert_Some in Hm as [[<- <-]|[Hn1 Hm]].
  { vm_compute in Hun. injection Hun as <-. simpl in Hcall.
    injection Hcall as <-. by rewrite lookup_insert_ne. }
  apply lookup_insert_Some in Hm as [[<- <-]|[Hn2 Hm]].
  { vm_compute in Hun. injection Hun as <-. simpl in Hcall.
    injection Hcall as <-. by rewrite lookup_insert_ne. }
  apply lookup_singleton_Some in Hm as [<- <-].
  by vm_compute in Hun.
Qed.

(** ** The theorems at the small instance *)

(** [demo_world] starts with an empty trace, so what a run adds to the
    trace is the trace of its last world. *)


(** C2 at the small instance, where what the theorem assumes holds. *)
Lemma Animate_reads_one_transfer_behind_witness :
  ready demo_shader (gl demo_world)
  ∧ setters_safe demo_shader (caller_map (Some 5%nat) demo_world)
  ∧ (∃ r,
       demo_run = Some r
       ∧ readback_lags (reverse (GL.trace (gl demo_world)))
           (GL.trace (gl (run_world r)))
         = replicate
             (length (readbacks (GL.trace (gl (run_world r)))))
             (Some 1%nat)).
Proof.
  split; [exact demo_ready|].
  split; [exact demo_safe|].
  apply (Animate_reads_one_transfer_behind
           demo_fragment demo_shader Second demo_envs (Some 5%nat) demo_order 6%nat demo_world);
    [exact demo_ready|exact demo_safe].
Defined.

(** C3 at the small instance, where what the theorem assumes holds. *)
Lemma Animate_primes_for_three_frames_witness :
  ready demo_shader (gl demo_world)
  ∧ setters_safe demo_shader (caller_map (Some 5%nat) demo_world)
  ∧ ((∀ uv t ks1 frame wd1,
        ready demo_shader (gl wd1) → setters_safe demo_shader (go_maps wd1 !!! uv) →
        ∃ wd' read,
          Animate_body demo_fragment demo_shader Second uv t ks1 frame wd1 = Some (wd', read)
          ∧ (read = None ↔ frame < len_pbos)
          ∧ (readbacks (new_events (GL.trace (gl wd1)) wd') = [] ↔ frame < len_pbos))
     ∧ ∃ r,
         demo_run = Some r
         ∧ ((sends (GL.trace (gl (run_world r))) = []
             ∧ draws_before_first_send (GL.trace (gl (run_world r)))
               = None)
            ∨ draws_before_first_send (GL.trace (gl (run_world r)))
              = Some 4%nat)).
Proof.
  split; [exact demo_ready|].
  split; [exact demo_safe|].
  apply (Animate_primes_for_three_frames
           demo_fragment demo_shader Second demo_envs (Some 5%nat) demo_order 6%nat demo_world);
    [exact demo_ready|exact demo_safe].
Defined.

(** C4 at the small instance, where what the theorem assumes holds. *)
Lemma Animate_ring_schedule_witness :
  ready demo_shader (gl demo_world)
  ∧ setters_safe demo_shader (caller_map (Some 5%nat) demo_world)
  ∧ ((∀ frame, pbo_at demo_shader (frame `mod` len_pbos) = Some (ring_slot demo_shader frame))
     ∧ (∀ frame, ring_slot demo_shader (frame - 1) ≠ ring_slot demo_shader frame)
     ∧ (∀ uv t ks1 frame wd1,
          ready demo_shader (gl wd1) → setters_safe demo_shader (go_maps wd1 !!! uv) →
          ∃ wd' read u,
            Animate_body demo_fragment demo_shader Second uv t ks1 frame wd1 = Some (wd', read)
            ∧ new_events (GL.trace (gl wd1)) wd' = iteration_calls demo_shader frame u)
     ∧ (∀ i : nat,
          len_pbos ≤ GoInt.to_uint64 (Z.of_nat i) →
          GoInt.to_uint64 (Z.of_nat i) - 1 = GoInt.to_uint64 (Z.of_nat i - 1))
     ∧ ∃ r,
         demo_run = Some r
         ∧ gl_calls (GL.trace (gl (run_world r)))
           = concat (imap (λ i u, iteration_calls demo_shader (GoInt.to_uint64 (Z.of_nat i)) u)
                       (draws (GL.trace (gl (run_world r)))))).
Proof.
  split; [exact demo_ready|].
  split; [exact demo_safe|].
  apply (Animate_ring_schedule
           demo_fragment demo_shader Second demo_envs (Some 5%nat) demo_order 6%nat demo_world);
    [exact demo_ready|exact demo_safe].
Defined.



(** C7 at the small instance, where what the theorem assumes holds. *)
Lemma unknown_uniform_ignored_witness :
  uniforms demo_shader !! "ghost" = None
  ∧ ((∀ vars pboIndex (m : umap) ks g,
        drawImage demo_fragment demo_shader vars pboIndex m ks g
        = drawImage demo_fragment demo_shader vars pboIndex (delete "ghost" m)
            (filter (λ k, k ≠ "ghost") ks) g
        ∧ (range_order m ks →
           range_order (delete "ghost" m) (filter (λ k, k ≠ "ghost") ks)))
     ∧ (∀ r ks wd,
          (λ res, (res.1, gl res.2)) <$> Image demo_fragment demo_shader (Some r) ks wd
          = (λ res, (res.1, gl res.2))
              <$> Image demo_fragment demo_shader (Some r) (filter (λ k, k ≠ "ghost") ks)
                    (map_delete r "ghost" wd))
     ∧ (∀ interval envs r ks fuel wd,
          observe <$> Animate demo_fragment demo_shader interval envs (Some r) ks fuel wd
          = observe <$> Animate demo_fragment demo_shader interval envs (Some r)
                          (λ i, filter (λ k, k ≠ "ghost") (ks i)) fuel
                          (map_delete r "ghost" wd))).
Proof.
  split; [reflexivity|].
  apply (unknown_uniform_ignored
           demo_fragment demo_shader "ghost");
    [reflexivity].
Defined.

(** C8 at the small instance, where what the theorem assumes holds. *)
Lemma Image_renders_slot_0_witness :
  ready demo_shader (gl demo_world)
  ∧ setters_safe demo_shader (caller_map (Some 5%nat) demo_world)
  ∧ (∃ img wd' u p0,
       Image demo_fragment demo_shader (Some 5%nat) demo_keys demo_world = Some (img, wd')
       ∧ pbo_at demo_shader 0 = Some p0
       ∧ (go_maps wd' !!! (or_new_map (Some 5%nat) demo_world).1) !! "resolution"
         = Some (default (ResolutionSetter (w demo_shader) (h demo_shader))
                   (caller_map (Some 5%nat) demo_world !! "resolution"))
       ∧ (∀ vars loc u0,
            call_setter vars (ResolutionSetter (w demo_shader) (h demo_shader)) loc u0
            = Some (<[loc := UFloats [F32.of_Z (w demo_shader); F32.of_Z (h demo_shader)]]> u0))
       ∧ set_uniforms demo_shader (go_vars demo_world)
           (range_entries (go_maps wd' !!! (or_new_map (Some 5%nat) demo_world).1) demo_keys)
           (GL.uniform_values (gl demo_world)) = Some u
       ∧ new_events (GL.trace (gl demo_world)) wd'
         = [DrawArrays u; ReadPixels p0; GetBufferSubData p0]
       ∧ image.Pix img = rasterize demo_fragment (w demo_shader) (h demo_shader) u).
Proof.
  split; [exact demo_ready|].
  split; [exact demo_safe|].
  apply (Image_renders_slot_0
           demo_fragment demo_shader (Some 5%nat) demo_keys demo_world);
    [exact demo_ready|exact demo_safe].
Defined.


(** C10 at the small instance, where what the theorem assumes holds. *)
Lemma caller_map_mutated_in_place_witness :
  ready demo_shader (gl demo_world)
  ∧ setters_safe demo_shader (go_maps demo_world !!! 5%nat)
  ∧ ((∀ ks, ∃ img wd',
        Image demo_fragment demo_shader (Some 5%nat) ks demo_world = Some (img, wd')
        ∧ (go_maps wd' !!! 5%nat) !! "resolution"
          = Some (default (ResolutionSetter (w demo_shader) (h demo_shader))
                    ((go_maps demo_world !!! 5%nat) !! "resolution"))
        ∧ ∀ k, k ≠ "resolution" → (go_maps wd' !!! 5%nat) !! k = (go_maps demo_world !!! 5%nat) !! k)
     ∧ (∀ interval envs ks fuel, (0 < fuel)%nat →
        ∃ run,
          Animate demo_fragment demo_shader interval envs (Some 5%nat) ks fuel demo_world = Some run
          ∧ (go_maps (run_world run) !!! 5%nat) !! "time"
            = Some (TimeSetter (fresh (dom (go_vars demo_world))))
          ∧ (go_maps (run_world run) !!! 5%nat) !! "resolution"
            = Some (default (ResolutionSetter (w demo_shader) (h demo_shader))
                      ((go_maps demo_world !!! 5%nat) !! "resolution"))
          ∧ ∀ k, k ≠ "time" → k ≠ "resolution" →
                 (go_maps (run_world run) !!! 5%nat) !! k = (go_maps demo_world !!! 5%nat) !! k)).
Proof.
  split; [exact demo_ready|].
  split; [exact demo_safe|].
  apply (caller_map_mutated_in_place
           demo_fragment demo_shader 5%nat demo_world);
    [exact demo_ready|exact demo_safe].
Defined.
(** ** Where the code differs from three claims *)


(** C2 as stated fails.  In a run of four iterations the one readback
    comes after a single transfer request into another buffer, fewer
    than the N - 1 = 2 that a full cycle of the ring would take. *)
Lemma Animate_readback_is_not_a_ring_cycle_behind :
  ∃ r,
    Animate demo_fragment demo_shader Second [send_ready] (Some 5%nat)
      demo_order 4 demo_world = Some r
    ∧ readback_lags [] (GL.trace (gl (run_world r))) = [Some 1%nat]
    ∧ ¬ Forall (λ lag, ∃ n : nat, lag = Some n ∧ len_pbos - 1 ≤ Z.of_nat n)
          (readback_lags [] (GL.trace (gl (run_world r)))).
Proof.
  eexists. split; [by vm_compute|]. split; [by vm_compute|].
  intros Hall. vm_compute readback_lags in Hall.
  apply Forall_singleton in Hall as (n & [= <-] & Hn). unfold len_pbos in Hn. lia.
Qed.

(** C3 as stated fails.  The iterations that skip the readback are not
    exactly the first N - 1 = 2: the third one, with frame counter 2,
    skips it too. *)
Lemma Animate_third_iteration_skips_readback :
  ¬ ∀ frame, 0 ≤ frame →
      (∃ wd', Animate_body demo_fragment demo_shader Second 5 0 demo_keys frame
                demo_world = Some (wd', None))
      ↔ frame < len_pbos - 1.
Proof.
  intros Hclaim. destruct (Hclaim 2) as [Hskip _]; [lia|].
  unfold len_pbos in Hskip. assert (2 < 3 - 1) as Habs; [|lia].
  apply Hskip. eexists. by vm_compute.
Qed.

(** ** The value of [time] in the small instance *)

(** In the run of the small instance every draw number [j] has [time] at
    [j + 1] seconds, so the two images sent show [time] at 3 and at 4
    seconds. *)
Example demo_time_at_draw :
  ∃ r,
    demo_run = Some r
    ∧ length (run_sent r) = 2%nat
    ∧ ∀ (j : nat) u,
        draws (GL.trace (gl (run_world r))) !! j = Some u →
        u !! 0 = Some (UFloats [seconds (GoInt.to_int64 ((Z.of_nat j + 1) * Second))]).
Proof.
  destruct (Animate_time_at_draw demo_fragment demo_shader Second demo_envs
              (Some 5%nat) demo_order 6 demo_world (Uniform_ 0 0)
              demo_ready demo_safe eq_refl demo_time_exclusive)
    as (r & Hrun & Htime).
  { intros i. unfold demo_order, demo_keys. set_solver. }
  exists r. split; [done|]. split; [|done].
  vm_compute in Hrun. by injection Hrun as <-.
Qed.

(** ** The [select] in the small instance *)

(** With [cancel] ready and the consumer ready too at the first
    [select], the run returns without an image when the runtime picks
    [cancel], and sends the image when it picks the send; a cancellation
    that is ready then ends the run at the next [select]. *)
Example demo_select_has_no_priority :
  (λ r, (run_status r, length (run_sent r)))
    <$> Animate demo_fragment demo_shader Second [both_ready true] (Some 5%nat)
          demo_order 6 demo_world
  = Some (Returned, 0%nat)
  ∧ (λ r, (run_status r, length (run_sent r)))
      <$> Animate demo_fragment demo_shader Second [both_ready false; cancel_fired]
            (Some 5%nat) demo_order 6 demo_world
    = Some (Returned, 1%nat).
Proof. split; by vm_compute. Qed.

(** ** [Image] with a nil map in the small instance *)

(** The image is red, the colour of a program whose [time] was never
    set, and of the size of the render target; the map objects that
    exist are left as they are. *)
Example demo_Image_nil_map :
  ∃ img wd',
    Image demo_fragment demo_shader None demo_keys demo_world = Some (img, wd')
    ∧ image.Pix img = pixel_bytes red ++ pixel_bytes red
    ∧ image.Stride img = 8
    ∧ sends (GL.trace (gl wd')) = []
    ∧ readbacks (GL.trace (gl wd')) = [1].
Proof. eexists _, _. split_and!; by vm_compute. Qed.

(** ** More facts about the small instances *)

Lemma demo_plain :
  plain_writes demo_shader (go_vars demo_world) (caller_map (Some 5%nat) demo_world).
Proof.
  change (caller_map (Some 5%nat) demo_world) with (go_maps demo_world !!! 5%nat).
  unfold demo_world. cbn [go_maps go_vars]. rewrite lookup_total_singleton_eq.
  unfold demo_map. apply map_Forall_insert_2.
  - unfold plain_write.
    replace (uniforms demo_shader !! "tint") with (Some (Uniform_ 0 2))
      by (by vm_compute).
    by eexists.
  - apply map_Forall_singleton. unfold plain_write.
    by replace (uniforms demo_shader !! "ghost") with (@None Uniform)
      by (by vm_compute).
Qed.

(** The three uniforms of [demo_shader] are at three locations. *)
Lemma demo_distinct (m : umap) : distinct_locations demo_shader m.
Proof.
  intros n1 n2 un1 un2 _ _ H1 H2 Hloc. unfold demo_shader in H1, H2.
  cbn [uniforms] in H1, H2.
  apply lookup_insert_Some in H1 as [[<- <-]|[? H1]];
    [|apply lookup_insert_Some in H1 as [[<- <-]|[? H1]];
      [|apply lookup_singleton_Some in H1 as [<- <-]]];
    (apply lookup_insert_Some in H2 as [[<- <-]|[? H2]];
     [|apply lookup_insert_Some in H2 as [[<- <-]|[? H2]];
       [|apply lookup_singleton_Some in H2 as [<- <-]]]);
    done.
Qed.

Lemma demo_orders :
  range_order (with_resolution demo_shader (caller_map (Some 5%nat) demo_world))
    demo_keys_a
  ∧ range_order (with_resolution demo_shader (caller_map (Some 5%nat) demo_world))
      demo_keys_b.
Proof.
  split; (split; [apply (bool_decide_unpack _); by vm_compute|]);
    apply (bool_decide_unpack _); by vm_compute.
Qed.

Lemma demo_untouched :
  untouched demo_shader 0
    (with_resolution demo_shader (caller_map (Some 5%nat) demo_world)).
Proof.
  intros name s un vars u u' Hm Hun Hcall.
  destruct (decide (name = "time")) as [-> | Hne].
  - by vm_compute in Hm.
  - by eapply demo_time_exclusive.
Qed.

(** ** The further theorems at the small instances *)


(** X2 at a map whose [tint] panics. *)
Lemma panicking_setter_of_active_uniform_witness :
  uniforms demo_shader !! "tint" = Some (Uniform_ 0 2)
  ∧ caller_map (Some 5%nat) broken_world !! "tint"
    = Some (CallerSetter (λ _ _, None))
  ∧ (∀ u : ustore, (λ (_ : Z) (_ : ustore), @None ustore) 2 u = None)
  ∧ (∀ ks, "tint" ∈ ks →
       Image demo_fragment demo_shader (Some 5%nat) ks broken_world = None)
  ∧ (∀ interval envs ks fuel,
       "tint" ≠ "time" → "tint" ∈ ks O → (0 < fuel)%nat →
       Animate demo_fragment demo_shader interval envs (Some 5%nat) ks fuel
         broken_world = None).
Proof.
  split; [reflexivity|]. split; [reflexivity|]. split; [reflexivity|].
  apply (panicking_setter_of_active_uniform demo_fragment demo_shader (Some 5%nat)
           broken_world "tint" (Uniform_ 0 2) (λ _ _, None));
    reflexivity.
Defined.

(** X3 at the small instance, for two orders of the [range]. *)
Lemma drawImage_order_independent_witness :
  plain_writes demo_shader (go_vars demo_world)
    (with_resolution demo_shader (caller_map (Some 5%nat) demo_world))
  ∧ distinct_locations demo_shader
      (with_resolution demo_shader (caller_map (Some 5%nat) demo_world))
  ∧ range_order (with_resolution demo_shader (caller_map (Some 5%nat) demo_world))
      demo_keys_a
  ∧ range_order (with_resolution demo_shader (caller_map (Some 5%nat) demo_world))
      demo_keys_b
  ∧ drawImage demo_fragment demo_shader (go_vars demo_world) 0
      (with_resolution demo_shader (caller_map (Some 5%nat) demo_world))
      demo_keys_a demo_gl
    = drawImage demo_fragment demo_shader (go_vars demo_world) 0
        (with_resolution demo_shader (caller_map (Some 5%nat) demo_world))
        demo_keys_b demo_gl.
Proof.
  split; [exact (plain_writes_with_resolution _ _ _ demo_plain)|].
  split; [exact (demo_distinct _)|].
  split; [exact (proj1 demo_orders)|].
  split; [exact (proj2 demo_orders)|].
  apply (drawImage_order_independent demo_fragment demo_shader (go_vars demo_world) 0
           (with_resolution demo_shader (caller_map (Some 5%nat) demo_world))
           demo_keys_a demo_keys_b demo_gl);
    [exact (plain_writes_with_resolution _ _ _ demo_plain)|exact (demo_distinct _)
    |exact (proj1 demo_orders)|exact (proj2 demo_orders)].
Defined.

(** X4 at the small instance. *)
Lemma Image_twice_same_image_witness :
  ready demo_shader (gl demo_world)
  ∧ plain_writes demo_shader (go_vars demo_world) (caller_map (Some 5%nat) demo_world)
  ∧ distinct_locations demo_shader
      (with_resolution demo_shader (caller_map (Some 5%nat) demo_world))
  ∧ range_order (with_resolution demo_shader (caller_map (Some 5%nat) demo_world))
      demo_keys_a
  ∧ range_order (with_resolution demo_shader (caller_map (Some 5%nat) demo_world))
      demo_keys_b
  ∧ ∃ img wd1 wd2,
      Image demo_fragment demo_shader (Some 5%nat) demo_keys_a demo_world
      = Some (img, wd1)
      ∧ Image demo_fragment demo_shader (Some 5%nat) demo_keys_b wd1
        = Some (img, wd2).
Proof.
  split; [exact demo_ready|].
  split; [exact demo_plain|].
  split; [exact (demo_distinct _)|].
  split; [exact (proj1 demo_orders)|].
  split; [exact (proj2 demo_orders)|].
  apply (Image_twice_same_image demo_fragment demo_shader (Some 5%nat)
           demo_keys_a demo_keys_b demo_world);
    [exact demo_ready|exact demo_plain|exact (demo_distinct _)
    |exact (proj1 demo_orders)|exact (proj2 demo_orders)].
Defined.

(** X5 at the small instance: a draw into slot 1, then a read of slot 1. *)
Lemma drawn_slot_reads_back_witness :
  ready demo_shader demo_gl
  ∧ pbo_at demo_shader 1 = Some 2
  ∧ GL.buffers demo_gl !! 2 = Some (replicate 8 Byte.x00)
  ∧ ∃ g1,
      drawImage demo_fragment demo_shader ∅ 1 demo_map demo_keys demo_gl = Some g1
      ∧ ∃ g2,
          downloadImage demo_shader 1 g1
          = Some (image.RGBA_
                    (if decide (1 = 1)
                     then rasterize demo_fragment (w demo_shader) (h demo_shader)
                            (GL.uniform_values g1)
                     else replicate 8 Byte.x00)
                    (4 * w demo_shader)
                    (image.Rectangle_ 0 0 (w demo_shader) (h demo_shader)),
                  g2)
          ∧ GL.buffers g2 = GL.buffers g1.
Proof.
  split; [exact demo_ready|]. split; [reflexivity|]. split; [reflexivity|].
  eexists. split; [by vm_compute|].
  apply (drawn_slot_reads_back demo_fragment demo_shader ∅ 1 demo_map demo_keys
           demo_gl _ 1 2 (replicate 8 Byte.x00));
    [exact demo_ready|by vm_compute|reflexivity|reflexivity].
Defined.

(** X6 at the small instance. *)
Lemma Animate_draws_four_ahead_witness :
  ready demo_shader (gl demo_world)
  ∧ setters_safe demo_shader (caller_map (Some 5%nat) demo_world)
  ∧ Z.of_nat 6 < 2 ^ 64
  ∧ ∃ r,
      demo_run = Some r
      ∧ let drawn :=
          length (draws (new_events (GL.trace (gl demo_world)) (run_world r))) in
        let taken := length (run_sent r) in
        (drawn ≤ taken + 4)%nat
        ∧ (run_status r ≠ Running → drawn = (taken + 4)%nat)
        ∧ (run_status r = Running → drawn = 6%nat ∧ taken = (6 - 3)%nat).
Proof.
  split; [exact demo_ready|]. split; [exact demo_safe|]. split; [lia|].
  apply (Animate_draws_four_ahead demo_fragment demo_shader Second demo_envs
           (Some 5%nat) demo_order 6%nat demo_world);
    [exact demo_ready|exact demo_safe|lia].
Defined.

(** X7 at the small instance. *)
Lemma Animate_footprint_witness :
  ready demo_shader (gl demo_world)
  ∧ setters_safe demo_shader (caller_map (Some 5%nat) demo_world)
  ∧ ∃ r,
      demo_run = Some r
      ∧ (∀ x, is_Some (go_maps demo_world !! x) → Some 5%nat ≠ Some x →
           go_maps (run_world r) !! x = go_maps demo_world !! x)
      ∧ (∀ y, is_Some (go_vars demo_world !! y) →
           go_vars (run_world r) !! y = go_vars demo_world !! y)
      ∧ (∀ b, b ∉ pbo_names demo_shader →
           GL.buffers (gl (run_world r)) !! b = GL.buffers (gl demo_world) !! b)
      ∧ GL.rb_width (gl (run_world r)) = GL.rb_width (gl demo_world)
      ∧ GL.rb_height (gl (run_world r)) = GL.rb_height (gl demo_world).
Proof.
  split; [exact demo_ready|]. split; [exact demo_safe|].
  apply (Animate_footprint demo_fragment demo_shader Second demo_envs
           (Some 5%nat) demo_order 6%nat demo_world);
    [exact demo_ready|exact demo_safe].
Defined.

(** X8 at the small instance. *)
Lemma Image_footprint_witness :
  ready demo_shader (gl demo_world)
  ∧ setters_safe demo_shader (caller_map (Some 5%nat) demo_world)
  ∧ ∃ img wd' p0,
      Image demo_fragment demo_shader (Some 5%nat) demo_keys demo_world
      = Some (img, wd')
      ∧ pbo_at demo_shader 0 = Some p0
      ∧ (∀ x, is_Some (go_maps demo_world !! x) → Some 5%nat ≠ Some x →
           go_maps wd' !! x = go_maps demo_world !! x)
      ∧ go_vars wd' = go_vars demo_world
      ∧ (∀ b, b ≠ p0 → GL.buffers (gl wd') !! b = GL.buffers (gl demo_world) !! b)
      ∧ GL.rb_width (gl wd') = GL.rb_width (gl demo_world)
      ∧ GL.rb_height (gl wd') = GL.rb_height (gl demo_world).
Proof.
  split; [exact demo_ready|]. split; [exact demo_safe|].
  apply (Image_footprint demo_fragment demo_shader (Some 5%nat) demo_keys demo_world);
    [exact demo_ready|exact demo_safe].
Defined.

(** X9 at the small instance. *)
Lemma Image_after_Animate_draws_last_time_witness :
  ready demo_shader (gl demo_world)
  ∧ setters_safe demo_shader (caller_map (Some 5%nat) demo_world)
  ∧ uniforms demo_shader !! "time" = Some (Uniform_ 0 0)
  ∧ time_exclusive demo_shader 0
      (with_resolution demo_shader (caller_map (Some 5%nat) demo_world))
  ∧ "time" ∈ demo_keys ∧ (0 < 6)%nat
  ∧ ∃ r img wd' u,
      demo_run = Some r
      ∧ Image demo_fragment demo_shader (Some 5%nat) demo_keys (run_world r)
        = Some (img, wd')
      ∧ image.Pix img = rasterize demo_fragment (w demo_shader) (h demo_shader) u
      ∧ u !! 0
        = Some (UFloats [seconds (GoInt.to_int64
             (Z.of_nat (length (draws (new_events (GL.trace (gl demo_world))
                                         (run_world r))))
              * Second))]).
Proof.
  assert ("time" ∈ demo_keys) as Hks by (unfold demo_keys; set_solver).
  split; [exact demo_ready|]. split; [exact demo_safe|]. split; [reflexivity|].
  split; [exact demo_time_exclusive|]. split; [exact Hks|]. split; [lia|].
  apply (Image_after_Animate_draws_last_time demo_fragment demo_shader Second
           demo_envs 5%nat demo_order demo_keys 6%nat demo_world (Uniform_ 0 0));
    [exact demo_ready|exact demo_safe|reflexivity|exact demo_time_exclusive
    |exact Hks|lia].
Defined.

(** X10 in a process that makes its first shader. *)
Lemma NewShader_then_Close_releases_witness :
  (once_done new_process = true ∨ glfw_Init all_ok = None)
  ∧ glfw_CreateWindow all_ok = None ∧ gl_Init all_ok = None
  ∧ linkProgram all_ok = None
  ∧ ∃ sh hd p1 c,
      NewShader all_ok 2 1 new_process = (inr (sh, hd), p1)
      ∧ (w sh, h sh, uniforms sh) = (2, 1, ListUniforms all_ok)
      ∧ NoDup (pbo_names sh)
      ∧ windows new_process !! win hd = None
      ∧ windows p1 = <[win hd := c]> (windows new_process) ∧ objects c = 7%nat
      ∧ current p1 = Some (win hd)
      ∧ Close sh hd p1 = Some (None, Process_ true (windows new_process) None).
Proof.
  split; [by right|]. split; [reflexivity|]. split; [reflexivity|].
  split; [reflexivity|].
  apply (NewShader_then_Close_releases all_ok 2 1 new_process);
    [by right|reflexivity|reflexivity|reflexivity].
Defined.

(** X11 in a process whose first program does not link. *)
Lemma NewShader_error_keeps_window_witness :
  (once_done new_process = true ∨ glfw_Init link_fails = None)
  ∧ glfw_CreateWindow link_fails = None
  ∧ (gl_Init link_fails = Some "link"
     ∨ (gl_Init link_fails = None ∧ linkProgram link_fails = Some "link"))
  ∧ ∃ p1 win c,
      NewShader link_fails 2 1 new_process = (inl "link", p1)
      ∧ windows new_process !! win = None
      ∧ windows p1 = <[win := c]> (windows new_process)
      ∧ current p1 = Some win
      ∧ objects c = match gl_Init link_fails with Some _ => 0 | None => 6 end%nat.
Proof.
  split; [by right|]. split; [reflexivity|]. split; [by right|].
  apply (proj2 (NewShader_error_keeps_window link_fails 2 1 new_process "link"
                  (or_intror eq_refl)));
    [reflexivity|by right].
Defined.


(** X13 at the small instance: the uniform at location 0, which the
    caller's map does not bind. *)
Lemma Image_keeps_unbound_uniform_witness :
  ready demo_shader (gl demo_world)
  ∧ setters_safe demo_shader (caller_map (Some 5%nat) demo_world)
  ∧ untouched demo_shader 0
      (with_resolution demo_shader (caller_map (Some 5%nat) demo_world))
  ∧ ∃ img wd' u,
      Image demo_fragment demo_shader (Some 5%nat) demo_keys demo_world
      = Some (img, wd')
      ∧ image.Pix img = rasterize demo_fragment (w demo_shader) (h demo_shader) u
      ∧ GL.uniform_values (gl wd') = u
      ∧ u !! 0 = GL.uniform_values (gl demo_world) !! 0.
Proof.
  split; [exact demo_ready|]. split; [exact demo_safe|].
  split; [exact demo_untouched|].
  apply (Image_keeps_unbound_uniform demo_fragment demo_shader (Some 5%nat)
           demo_keys demo_world 0);
    [exact demo_ready|exact demo_safe|exact demo_untouched].
Defined.

(** X14 at the small instance: two images taken, then the cancellation. *)
Lemma Animate_returns_when_cancelled_witness :
  ready demo_shader (gl demo_world)
  ∧ setters_safe demo_shader (caller_map (Some 5%nat) demo_world)
  ∧ Forall (λ e, go_select e = Some CaseSend) [send_ready; send_ready]
  ∧ go_select cancel_fired = Some CaseCancel
  ∧ (length [send_ready; send_ready] + 4 ≤ 6)%nat ∧ Z.of_nat 6 < 2 ^ 64
  ∧ ∃ r,
      Animate demo_fragment demo_shader Second
        ([send_ready; send_ready] ++ cancel_fired :: []) (Some 5%nat) demo_order 6
        demo_world = Some r
      ∧ run_status r = Returned
      ∧ length (run_sent r) = length [send_ready; send_ready]
      ∧ run_frame r = Z.of_nat (length [send_ready; send_ready]) + 3
      ∧ length (draws (new_events (GL.trace (gl demo_world)) (run_world r)))
        = (length [send_ready; send_ready] + 4)%nat.
Proof.
  assert (Forall (λ e, go_select e = Some CaseSend) [send_ready; send_ready]) as Hes.
  { by repeat constructor. }
  split; [exact demo_ready|]. split; [exact demo_safe|]. split; [exact Hes|].
  split; [reflexivity|]. split; [simpl; lia|]. split; [lia|].
  apply (Animate_returns_when_cancelled demo_fragment demo_shader Second
           [send_ready; send_ready] cancel_fired [] (Some 5%nat) demo_order 6%nat
           demo_world);
    [exact demo_ready|exact demo_safe|exact Hes|reflexivity|simpl; lia|lia].
Defined.

(** X15 at the run of the small instance. *)
Lemma Animate_outcome_witness :
  ∃ r,
    demo_run = Some r
    ∧ ∃ es rest,
        demo_envs = es ++ rest
        ∧ Forall (λ e, go_select e = Some CaseSend) es
        ∧ length (run_sent r) = length es
        ∧ match run_status r with
          | Returned => ∃ ec, head rest = Some ec ∧ go_select ec = Some CaseCancel
          | Blocked => ∀ e, head rest = Some e → go_select e = None
          | Running => True
          end.
Proof.
  eexists. split; [by vm_compute|].
  apply (Animate_outcome demo_fragment demo_shader Second demo_envs (Some 5%nat)
           demo_order 6%nat demo_world _).
  by vm_compute.
Defined.



End glsl.
